(** * Folha de arvore B+ em arquivo binario: lista duplamente encadeada
      por cursores, com lista de nos livres (main.cpp).

    The file [pagina.dat] is a sequence of fixed-size cells ([union celula]):
    cell 0 is the header, cells 1..tam are list nodes addressed by 1-based
    cursors.  The development embeds [inicializar], [pesquisa], [inserir],
    [inserirOrdenado] and [remover] as programs of a small state-and-failure
    monad over the file contents, and proves the structural invariants of
    the two chains (active records, free nodes). *)

From Stdlib Require Import ZArith List Lia Bool Sorted Permutation.
From Stdlib Require Import Strings.Byte.
From stdpp Require Import base tactics option list numbers sets sorting.

Open Scope Z_scope.

(** ** Machine integers *)

(** [int] is a 32-bit two's complement integer; [wrap] is the value an
    increment or decrement takes after wrap-around. *)
Definition INT_MAX : Z := 2147483647.
Definition wrap (z : Z) : Z := (z + 2147483648) mod 4294967296 - 2147483648.

(** ** Cells *)

(** [struct dados]: the key and the 30-byte name field. *)
Record dados := Dados { chave : Z; nome : list byte }.

(** The [lista] member of [union celula]. *)
Record no := No { next : Z; prev : Z; reg : dados }.

(** The [cabecalho] member of [union celula]. *)
Record cabecalho := Cabecalho {
  quant : Z; first : Z; last : Z; free : Z; tam : Z }.

(** The file: the header cell followed by the node cells, in file order. *)
Record arquivo := Arquivo { cab : cabecalho; nos : list no }.

(** The cell at cursor [pos], i.e. at byte offset
    [sizeof(celula) + (pos-1)*sizeof(celula)], when the file has one. *)
Definition no_em (ns : list no) (pos : Z) : option no :=
  if 1 <=? pos then ns !! Z.to_nat (pos - 1) else None.

Definition atualiza (ns : list no) (pos : Z) (l : no) : list no :=
  <[Z.to_nat (pos - 1) := l]> ns.

(** ** File programs *)

(** A read outside the cells of the file fails and leaves the destination
    cell indeterminate ([ForaDoArquivo]); a scan that follows a cyclic chain
    never returns ([NaoTermina]).  Both end the run of the model. *)
Inductive falha := ForaDoArquivo | NaoTermina.

Inductive res (A : Type) :=
| Val (x : A) (a : arquivo)
| Erro (e : falha).
Arguments Val {A} x a.
Arguments Erro {A} e.

Definition io (A : Type) := arquivo -> res A.

Definition ret {A} (x : A) : io A := fun a => Val x a.

Definition bind {A B} (m : io A) (k : A -> io B) : io B :=
  fun a => match m a with
           | Val x a' => k x a'
           | Erro e => Erro e
           end.

Notation "x <- m ;; k" := (bind m (fun x => k))
  (at level 100, m at next level, right associativity).
Notation "m ;;; k" := (bind m (fun _ => k))
  (at level 100, right associativity).

(** [arq.seekg(0); arq.read(&cab)] *)
Definition lerCab : io cabecalho := fun a => Val (cab a) a.

(** [arq.seekp(0); arq.write(&cab)] *)
Definition escreverCab (c : cabecalho) : io unit :=
  fun a => Val tt {| cab := c; nos := nos a |}.

(** [arq.seekg(sizeof(celula) + (pos-1)*sizeof(celula)); arq.read(&l)] *)
Definition lerNo (pos : Z) : io no :=
  fun a => match no_em (nos a) pos with
           | Some l => Val l a
           | None => Erro ForaDoArquivo
           end.

(** [arq.seekp(sizeof(celula) + (pos-1)*sizeof(celula)); arq.write(&l)];
    the model covers writes over existing cells only. *)
Definition escreverNo (pos : Z) (l : no) : io unit :=
  fun a => match no_em (nos a) pos with
           | Some _ => Val tt {| cab := cab a; nos := atualiza (nos a) pos l |}
           | None => Erro ForaDoArquivo
           end.

(** The scans of [pesquisa], [inserirOrdenado] and [remover] only read, and
    their next cursor depends on the current one alone; a scan that has read
    more cells than the file holds has therefore met some cursor twice and
    never leaves its cycle.  This is the bound given to every loop over a
    chain: running out of it stands for a loop that does not return. *)
Definition combustivel : io nat := fun a => Val (S (length (nos a))) a.

(** Field updates. *)
Definition com_next (l : no) (v : Z) : no :=
  {| next := v; prev := prev l; reg := reg l |}.
Definition com_prev (l : no) (v : Z) : no :=
  {| next := next l; prev := v; reg := reg l |}.

(** ** inicializar *)

(** The cell written at iteration [i] of the loop of [inicializar]; [lixo]
    is the content of the name field of the local cell, which the function
    never assigns. *)
Definition no_inicial (i n : Z) (lixo : list byte) : no :=
  {| next := if i =? n then -1 else wrap (i + 1);
     prev := -1;
     reg := {| chave := -1; nome := lixo |} |}.

(** [for (int i = 1; i <= cab.cabecalho.tam; i++)]: each iteration appends
    one cell.  The loop condition cannot become false when [n = INT_MAX]. *)
Fixpoint inicializar_laco (fuel : nat) (i n : Z) (lixo : list byte)
    (escritos : list no) : option (list no) :=
  if i <=? n then
    match fuel with
    | O => None
    | S fuel' =>
        inicializar_laco fuel' (wrap (i + 1)) n lixo
          (escritos ++ [no_inicial i n lixo])
    end
  else Some escritos.

(** [inicializar(arq, n)] (lines 79-103) on the file just created by
    [main]: the header, then [n] cells written one after the other.  No
    result stands for the loop that does not end. *)
Definition inicializar (n : Z) (lixo : list byte) : option arquivo :=
  match inicializar_laco (Z.to_nat n) 1 n lixo [] with
  | Some ns =>
      Some {| cab := {| quant := 0; first := -1; last := -1; free := 1;
                        tam := n |};
              nos := ns |}
  | None => None
  end.

(** ** pesquisa *)

Fixpoint pesquisa_laco (fuel : nat) (k : Z) (atual : Z) : io (option no) :=
  if atual =? -1 then ret None
  else match fuel with
       | O => fun _ => Erro NaoTermina
       | S fuel' =>
           resultado <- lerNo atual ;;
           if chave (reg resultado) =? k then ret (Some resultado)
           else pesquisa_laco fuel' k (next resultado)
       end.

(** [pesquisa(arq, chave, resultado)] (lines 226-241): [Some l] stands for
    [true] with [resultado = l]; [None] for [false]. *)
Definition pesquisa (k : Z) : io (option no) :=
  c <- lerCab ;;
  fuel <- combustivel ;;
  pesquisa_laco fuel k (first c).

(** ** inserir *)

(** What an insertion reports: nothing, or one of its two error lines.
    [inserir] is lines 256-310. *)
Inductive aviso := Inserido | ChaveJaExistente | ArquivoCheio.

Definition inserir (d : dados) : io aviso :=
  existente <- pesquisa (chave d) ;;
  match existente with
  | Some _ => ret ChaveJaExistente
  | None =>
      c <- lerCab ;;
      if free c =? -1 then ret ArquivoCheio
      else
        l <- lerNo (free c) ;;
        let free' := next l in
        let l := {| next := -1; prev := last c; reg := d |} in
        (if negb (last c =? -1) then
           lastNode <- lerNo (last c) ;;
           escreverNo (last c) (com_next lastNode (free c))
         else ret tt) ;;;
        escreverNo (free c) l ;;;
        let first' := if first c =? -1 then free c else first c in
        escreverCab {| quant := wrap (quant c + 1); first := first';
                       last := free c; free := free'; tam := tam c |} ;;;
        ret Inserido
  end.

(** ** inserirOrdenado *)

(** The search for the insertion point (lines 359-368): returns
    [(atual, anterior_pos)].  [inserirOrdenado] is lines 325-428; its
    branches return the header and the new cell as they stand before the
    two final writes. *)
Fixpoint procura_laco (fuel : nat) (k : Z) (atual anterior_pos : Z)
    : io (Z * Z) :=
  if atual =? -1 then ret (atual, anterior_pos)
  else match fuel with
       | O => fun _ => Erro NaoTermina
       | S fuel' =>
           l <- lerNo atual ;;
           if chave (reg l) >? k then ret (atual, anterior_pos)
           else procura_laco fuel' k (next l) atual
       end.

Definition inserirOrdenado (d : dados) : io aviso :=
  existente <- pesquisa (chave d) ;;
  match existente with
  | Some _ => ret ChaveJaExistente
  | None =>
      c <- lerCab ;;
      if free c =? -1 then ret ArquivoCheio
      else
        novo <- lerNo (free c) ;;
        let free' := next novo in
        cn <-
          (if first c =? -1 then
             ret ({| quant := quant c; first := free c; last := free c;
                     free := free c; tam := tam c |},
                  {| next := -1; prev := -1; reg := d |})
           else
             fuel <- combustivel ;;
             p <- procura_laco fuel (chave d) (first c) (-1) ;;
             let atual := fst p in
             let anterior_pos := snd p in
             if atual =? first c then
               l <- lerNo (first c) ;;
               escreverNo (first c) (com_prev l (free c)) ;;;
               ret ({| quant := quant c; first := free c; last := last c;
                       free := free c; tam := tam c |},
                    {| next := first c; prev := -1; reg := d |})
             else if atual =? -1 then
               l <- lerNo (last c) ;;
               escreverNo (last c) (com_next l (free c)) ;;;
               ret ({| quant := quant c; first := first c; last := free c;
                       free := free c; tam := tam c |},
                    {| next := -1; prev := last c; reg := d |})
             else
               anterior <- lerNo anterior_pos ;;
               escreverNo anterior_pos (com_next anterior (free c)) ;;;
               proximo <- lerNo atual ;;
               escreverNo atual (com_prev proximo (free c)) ;;;
               ret (c, {| next := atual; prev := anterior_pos; reg := d |})) ;;
        let c' := fst cn in
        let novo := snd cn in
        escreverNo (free c') novo ;;;
        escreverCab {| quant := wrap (quant c' + 1); first := first c';
                       last := last c'; free := free'; tam := tam c' |} ;;;
        ret Inserido
  end.

(** ** remover *)

(** The bytes of the C string ["[LIVRE]"]. *)
Definition LIVRE : list byte := [x5b; x4c; x49; x56; x52; x45; x5d].

(** [strcpy(dst, src)]: the characters of [src] and the terminating zero
    replace the first bytes of [dst]; the rest of [dst] stays. *)
Definition strcpy (dst src : list byte) : list byte :=
  src ++ x00 :: drop (S (length src)) dst.

(** [remover] (lines 444-513); [c] is the header read on entry. *)
Fixpoint remover_laco (fuel : nat) (k : Z) (c : cabecalho) (atual : Z)
    : io bool :=
  if atual =? -1 then ret false
  else match fuel with
       | O => fun _ => Erro NaoTermina
       | S fuel' =>
           l <- lerNo atual ;;
           if chave (reg l) =? k then
             first' <-
               (if negb (prev l =? -1) then
                  anterior <- lerNo (prev l) ;;
                  escreverNo (prev l) (com_next anterior (next l)) ;;;
                  ret (first c)
                else ret (next l)) ;;
             last' <-
               (if negb (next l =? -1) then
                  proximo <- lerNo (next l) ;;
                  escreverNo (next l) (com_prev proximo (prev l)) ;;;
                  ret (last c)
                else ret (prev l)) ;;
             escreverNo atual
               {| next := free c; prev := -1;
                  reg := {| chave := -1;
                            nome := strcpy (nome (reg l)) LIVRE |} |} ;;;
             let quant' := wrap (quant c - 1) in
             escreverCab
               (if quant' =? 0 then
                  {| quant := quant'; first := -1; last := -1;
                     free := atual; tam := tam c |}
                else
                  {| quant := quant'; first := first'; last := last';
                     free := atual; tam := tam c |}) ;;;
             ret true
           else remover_laco fuel' k c (next l)
       end.

Definition remover (k : Z) : io bool :=
  c <- lerCab ;;
  fuel <- combustivel ;;
  remover_laco fuel k c (first c).

(** ** Sessions

    The three mutating entry points called from the menu of [main]. *)
Inductive op :=
| Inserir (d : dados)
| InserirOrdenado (d : dados)
| Remover (k : Z).

Definition executa (o : op) : io unit :=
  match o with
  | Inserir d => inserir d ;;; ret tt
  | InserirOrdenado d => inserirOrdenado d ;;; ret tt
  | Remover k => remover k ;;; ret tt
  end.

(** The states of the file: [inicializar] followed by operations taken from
    a permitted set, each running to completion.  A refused operation is a
    step that leaves the file as it is. *)
Inductive alcancavel (permitida : op -> Prop) : arquivo -> Prop :=
| alc_inicial n lixo a :
    inicializar n lixo = Some a -> alcancavel permitida a
| alc_passo a o a' :
    alcancavel permitida a -> permitida o -> executa o a = Val tt a' ->
    alcancavel permitida a'.

Definition qualquer : op -> Prop := fun _ => True.

(** Every insertion is an [inserirOrdenado]. *)
Definition so_ordenado (o : op) : Prop :=
  match o with Inserir _ => False | _ => True end.

(** ** Chains as the dumps of [main] traverse them *)

(** Follow [campo] from cursor [c] until [-1], collecting each position
    with the cell read there, as the loop of [imprimirFree] does
    ([imprimirLista] follows [next] in the same way and stops at [last]). *)
Fixpoint cadeia (campo : no -> Z) (fuel : nat) (ns : list no) (c : Z)
    : option (list (Z * no)) :=
  if c =? -1 then Some []
  else match fuel with
       | O => None
       | S fuel' =>
           match no_em ns c with
           | Some l => cons (c, l) <$> cadeia campo fuel' ns (campo l)
           | None => None
           end
       end.

Definition ativos (a : arquivo) : option (list (Z * no)) :=
  cadeia next (S (length (nos a))) (nos a) (first (cab a)).

Definition ativos_para_tras (a : arquivo) : option (list (Z * no)) :=
  cadeia prev (S (length (nos a))) (nos a) (last (cab a)).

Definition livres (a : arquivo) : option (list (Z * no)) :=
  cadeia next (S (length (nos a))) (nos a) (free (cab a)).

Definition chave_de (x : Z * no) : Z := chave (reg x.2).

(** ** The abstract content of a file

    The active chain is described by the list [L] of its cursors with the
    record each one holds, front to back, and the free chain by the list [F]
    of its cursors. *)

Definition cabeca (L : list (Z * dados)) (q : Z) : Z :=
  match L with [] => q | x :: _ => x.1 end.

Fixpoint ultimo (L : list (Z * dados)) (p : Z) : Z :=
  match L with [] => p | x :: L' => ultimo L' x.1 end.

(** The cells of a doubly linked segment: [p] is the [prev] of its first
    cell and [q] the [next] of its last one. *)
Fixpoint celulas (p : Z) (L : list (Z * dados)) (q : Z) : list (Z * no) :=
  match L with
  | [] => []
  | x :: L' => (x.1, No (cabeca L' q) p x.2) :: celulas x.1 L' q
  end.

Definition dll (ns : list no) (p : Z) (L : list (Z * dados)) (q : Z) : Prop :=
  Forall (fun x => no_em ns x.1 = Some x.2) (celulas p L q).

(** A free cell: linked by [next] only, [prev] and key set to [-1]. *)
Definition livre_em (ns : list no) (c nxt : Z) : Prop :=
  exists nm, no_em ns c = Some (No nxt (-1) (Dados (-1) nm)).

Fixpoint fl (ns : list no) (F : list Z) : Prop :=
  match F with
  | [] => True
  | c :: F' => livre_em ns c (hd (-1) F') /\ fl ns F'
  end.

Record Rep (a : arquivo) (L : list (Z * dados)) (F : list Z) : Prop := {
  rep_quant : quant (cab a) = Z.of_nat (length L);
  rep_first : first (cab a) = cabeca L (-1);
  rep_last : last (cab a) = ultimo L (-1);
  rep_free : free (cab a) = hd (-1) F;
  rep_tam : Z.of_nat (length (nos a)) = tam (cab a);
  rep_max : tam (cab a) < INT_MAX;
  rep_dll : dll (nos a) (-1) L (-1);
  rep_fl : fl (nos a) F;
  rep_perm : L.*1 ++ F ≡ₚ seqZ 1 (tam (cab a))
}.

(** The file right after [inicializar] with a capacity below 1: no cell
    was written, yet the header names cursor 1 as the first free one. *)
Definition sem_nos (a : arquivo) : Prop :=
  nos a = [] /\ quant (cab a) = 0 /\ first (cab a) = -1 /\
  last (cab a) = -1 /\ free (cab a) = 1 /\ tam (cab a) <= 0.

(** How an operation changes the content. *)
Definition passo_abs (o : op) (L : list (Z * dados)) (F : list Z)
    (L' : list (Z * dados)) (F' : list Z) : Prop :=
  (L' = L /\ F' = F) \/
  match o with
  | Inserir d =>
      exists c, F = c :: F' /\ L' = L ++ [(c, d)] /\
                Forall (fun x => chave x.2 <> chave d) L
  | InserirOrdenado d =>
      exists c L1 L2,
        F = c :: F' /\ L = L1 ++ L2 /\ L' = L1 ++ (c, d) :: L2 /\
        Forall (fun x => chave x.2 <> chave d) L /\
        Forall (fun x => chave x.2 <= chave d) L1 /\
        match L2 with [] => True | x :: _ => chave x.2 > chave d end
  | Remover k =>
      exists L1 x L2, L = L1 ++ x :: L2 /\ L' = L1 ++ L2 /\ F' = x.1 :: F
  end.

(** The sequence of operations of a session. *)
Fixpoint executa_todas (os : list op) (a : arquivo) : option arquivo :=
  match os with
  | [] => Some a
  | o :: os' =>
      match executa o a with
      | Val _ a' => executa_todas os' a'
      | Erro _ => None
      end
  end.

(** An operation that was refused: an insertion that printed one of its
    two error lines, or a removal that returned [false]. *)
Definition recusada (o : op) (a a' : arquivo) : Prop :=
  match o with
  | Inserir d =>
      inserir d a = Val ChaveJaExistente a' \/
      inserir d a = Val ArquivoCheio a'
  | InserirOrdenado d =>
      inserirOrdenado d a = Val ChaveJaExistente a' \/
      inserirOrdenado d a = Val ArquivoCheio a'
  | Remover k => remover k a = Val false a'
  end.

(** Every inserted key differs from the mark of the free cells. *)
Definition chave_valida (o : op) : Prop :=
  match o with
  | Inserir d | InserirOrdenado d => chave d <> -1
  | Remover _ => True
  end.

(** ** The dumps and the menu

    What the three dumps print is kept as data: one [linha] for each [Pos]
    line, with the key and the name as they are shown. *)

(** The characters that [<<] prints for a [char] array: those before the
    first zero. *)
Fixpoint cstr (bs : list byte) : list byte :=
  match bs with
  | [] => []
  | b :: bs' => if Byte.eqb b x00 then [] else b :: cstr bs'
  end.

(** A printed line: [lin_chave = None] stands for the text [[LIVRE]] in
    place of the key. *)
Record linha := Linha {
  lin_pos : Z; lin_chave : option Z; lin_nome : list byte;
  lin_next : Z; lin_prev : Z }.

(** The line of [imprimirEstrutura] (lines 133-137): key and name are both
    replaced by [[LIVRE]] when the key is [-1]. *)
Definition linha_estrutura (i : Z) (l : no) : linha :=
  if chave (reg l) =? -1
  then Linha i None LIVRE (next l) (prev l)
  else Linha i (Some (chave (reg l))) (cstr (nome (reg l))) (next l) (prev l).

(** [for (int i = 1; i <= cab.cabecalho.tam; i++)] of [imprimirEstrutura]:
    the cells are read one after the other, without seeking, so the cell
    read at an iteration is the one at file position [pos], whatever the
    counter [i] printed with it. *)
Fixpoint imprimirEstrutura_laco (fuel : nat) (i pos tam_ : Z)
    : io (list linha) :=
  if i <=? tam_ then
    match fuel with
    | O => fun _ => Erro NaoTermina
    | S fuel' =>
        l <- lerNo pos ;;
        resto <- imprimirEstrutura_laco fuel' (wrap (i + 1)) (pos + 1) tam_ ;;
        ret (linha_estrutura i l :: resto)
    end
  else ret [].

(** [imprimirEstrutura] (lines 115-140): the header, then one line for each
    of the [tam] cells. *)
Definition imprimirEstrutura : io (cabecalho * list linha) :=
  c <- lerCab ;;
  fuel <- combustivel ;;
  ls <- imprimirEstrutura_laco fuel 1 1 (tam c) ;;
  ret (c, ls).

(** The line of [imprimirLista] (lines 174-178). *)
Definition linha_lista (pos : Z) (l : no) : linha :=
  Linha pos (Some (chave (reg l))) (cstr (nome (reg l))) (next l) (prev l).

(** The loop of [imprimirLista] (lines 171-182): it stops after the cell at
    [last], or at a [next] of [-1]. *)
Fixpoint imprimirLista_laco (fuel : nat) (ult : Z) (pos : Z)
    : io (list linha) :=
  if pos =? -1 then ret []
  else match fuel with
       | O => fun _ => Erro NaoTermina
       | S fuel' =>
           l <- lerNo pos ;;
           if pos =? ult then ret [linha_lista pos l]
           else
             resto <- imprimirLista_laco fuel' ult (next l) ;;
             ret (linha_lista pos l :: resto)
       end.

(** What [imprimirLista] prints after the header: [Lista vazia!] or the
    lines of the records. *)
Inductive listagem := ListaVazia | Registros (ls : list linha).

(** [imprimirLista] (lines 151-184); of the header it prints all fields but
    [tam]. *)
Definition imprimirLista : io (cabecalho * listagem) :=
  c <- lerCab ;;
  if first c =? -1 then ret (c, ListaVazia)
  else
    fuel <- combustivel ;;
    ls <- imprimirLista_laco fuel (last c) (first c) ;;
    ret (c, Registros ls).

(** The loop of [imprimirFree] (lines 206-211): each line shows a position
    and the [next] read there. *)
Fixpoint imprimirFree_laco (fuel : nat) (pos : Z) : io (list (Z * Z)) :=
  if pos =? -1 then ret []
  else match fuel with
       | O => fun _ => Erro NaoTermina
       | S fuel' =>
           l <- lerNo pos ;;
           resto <- imprimirFree_laco fuel' (next l) ;;
           ret ((pos, next l) :: resto)
       end.

(** [imprimirFree] (lines 195-213): the [free] field of the header, then
    the lines of the free chain. *)
Definition imprimirFree : io (Z * list (Z * Z)) :=
  c <- lerCab ;;
  fuel <- combustivel ;;
  ls <- imprimirFree_laco fuel (free c) ;;
  ret (free c, ls).

(** One choice of the menu of [main] with the values read for it; any
    number other than 0..7 is an [EOutra]. *)
Inductive entrada :=
| EInserir (d : dados)
| EInserirOrdenado (d : dados)
| ERemover (k : Z)
| EPesquisar (k : Z)
| EImprimirLista
| EImprimirEstrutura
| EImprimirFree
| ESair
| EOutra.

(** What the program answers to a choice. *)
Inductive saida :=
| SAviso (w : aviso)
| SRemovido (b : bool)
| SPesquisa (r : option (Z * list byte))
| SLista (x : cabecalho * listagem)
| SEstrutura (x : cabecalho * list linha)
| SLivres (x : Z * list (Z * Z))
| SEncerrando
| SInvalida.

(** The [switch] of [main] (lines 570-621). *)
Definition menu (e : entrada) : io saida :=
  match e with
  | EInserir d => w <- inserir d ;; ret (SAviso w)
  | EInserirOrdenado d => w <- inserirOrdenado d ;; ret (SAviso w)
  | ERemover k => b <- remover k ;; ret (SRemovido b)
  | EPesquisar k =>
      r <- pesquisa k ;;
      ret (SPesquisa
             (match r with
              | Some l => Some (chave (reg l), cstr (nome (reg l)))
              | None => None
              end))
  | EImprimirLista => x <- imprimirLista ;; ret (SLista x)
  | EImprimirEstrutura => x <- imprimirEstrutura ;; ret (SEstrutura x)
  | EImprimirFree => x <- imprimirFree ;; ret (SLivres x)
  | ESair => ret SEncerrando
  | EOutra => ret SInvalida
  end.

(** The [do ... while (op != 0)] of [main] (lines 557-622) over the choices
    typed by the user: nothing is read after a choice of 0. *)
Fixpoint sessao (es : list entrada) : io (list saida) :=
  match es with
  | [] => ret []
  | e :: es' =>
      s <- menu e ;;
      match e with
      | ESair => ret [s]
      | _ => ss <- sessao es' ;; ret (s :: ss)
      end
  end.

(** The records of the active chain, in the order of the chain. *)
Definition registros (a : arquivo) : option (list dados) :=
  map (fun x => reg x.2) <$> ativos a.

(** The key an operation is about. *)
Definition chave_op (o : op) : Z :=
  match o with
  | Inserir d | InserirOrdenado d => chave d
  | Remover k => k
  end.

(** The record of the first entry of [L] with key [k]. *)
Fixpoint acha (k : Z) (L : list (Z * dados)) : option dados :=
  match L with
  | [] => None
  | x :: L' => if chave x.2 =? k then Some x.2 else acha k L'
  end.

(** The choices of the menu that only read the file. *)
Definition so_leitura (e : entrada) : Prop :=
  match e with
  | EInserir _ | EInserirOrdenado _ | ERemover _ => False
  | _ => True
  end.

(** The file a program leaves, or the file it was given when it fails. *)
Definition apos {A} (m : io A) (a : arquivo) : arquivo :=
  match m a with
  | Val _ a' => a'
  | Erro _ => a
  end.

(** ** Example files

    The file after [inicializar(arq, 3)], and after the three sorted
    insertions of keys 2, 5 and 3 that follow it. *)

Definition arquivo_novo : arquivo :=
  Arquivo (Cabecalho 0 (-1) (-1) 1 3)
          [No 2 (-1) (Dados (-1) []); No 3 (-1) (Dados (-1) []);
           No (-1) (-1) (Dados (-1) [])].

Definition tres_insercoes : list op :=
  [InserirOrdenado (Dados 2 [x42]); InserirOrdenado (Dados 5 [x41]);
   InserirOrdenado (Dados 3 [x43])].

Definition arquivo_exemplo : arquivo :=
  Arquivo (Cabecalho 3 1 2 (-1) 3)
          [No 3 (-1) (Dados 2 [x42]); No (-1) 3 (Dados 5 [x41]);
           No 2 1 (Dados 3 [x43])].

(** More example files: after one [inserir] of key 5 on the new file; after
    the first two of the three sorted insertions; after [remover] of key 3
    from the example, and after an [inserir] of key 7 that follows it. *)

Definition arquivo_um : arquivo :=
  Eval cbv in apos (inserir (Dados 5 [x41])) arquivo_novo.

Definition arquivo_dois : arquivo :=
  Eval cbv in
    apos (inserirOrdenado (Dados 5 [x41]))
         (apos (inserirOrdenado (Dados 2 [x42])) arquivo_novo).

Definition arquivo_sem_3 : arquivo :=
  Eval cbv in apos (remover 3) arquivo_exemplo.

Definition arquivo_sem_3_com_7 : arquivo :=
  Eval cbv in apos (inserir (Dados 7 [x44])) arquivo_sem_3.

(** * Proofs *)

(** ** Cells of the file *)

Lemma no_em_Some ns pos l :
  no_em ns pos = Some l -> 1 <= pos <= Z.of_nat (length ns).
Proof.
  unfold no_em. destruct (Z.leb_spec 1 pos); [|done].
  intros H1%lookup_lt_Some. lia.
Qed.

Lemma no_em_is_Some ns pos :
  1 <= pos <= Z.of_nat (length ns) -> is_Some (no_em ns pos).
Proof.
  intros H. unfold no_em. destruct (Z.leb_spec 1 pos); [|lia].
  apply lookup_lt_is_Some. lia.
Qed.

Lemma no_em_atualiza_eq ns pos l l0 :
  no_em ns pos = Some l0 -> no_em (atualiza ns pos l) pos = Some l.
Proof.
  unfold no_em, atualiza. destruct (Z.leb_spec 1 pos); [|done].
  intros H1%lookup_lt_Some. by apply list_lookup_insert_eq.
Qed.

Lemma no_em_atualiza_ne ns pos l q :
  1 <= pos -> q <> pos -> no_em (atualiza ns pos l) q = no_em ns q.
Proof.
  intros Hp Hq. unfold no_em, atualiza.
  destruct (Z.leb_spec 1 q); [|done].
  apply list_lookup_insert_ne. lia.
Qed.

Lemma length_atualiza ns pos l : length (atualiza ns pos l) = length ns.
Proof. apply length_insert. Qed.

Lemma wrap_id z : -2147483648 <= z <= INT_MAX -> wrap z = z.
Proof.
  unfold wrap, INT_MAX. intros H.
  rewrite Z.mod_small; lia.
Qed.

Lemma ultimo_app L1 L2 p : ultimo (L1 ++ L2) p = ultimo L2 (ultimo L1 p).
Proof. revert p. induction L1 as [|x L1 IH]; intros p; simpl; auto. Qed.

Lemma cabeca_app L1 L2 q : cabeca (L1 ++ L2) q = cabeca L1 (cabeca L2 q).
Proof. by destruct L1. Qed.

Lemma celulas_app p L1 L2 q :
  celulas p (L1 ++ L2) q =
  celulas p L1 (cabeca L2 q) ++ celulas (ultimo L1 p) L2 q.
Proof.
  revert p. induction L1 as [|x L1 IH]; intros p; simpl; [done|].
  by rewrite IH, cabeca_app.
Qed.

Lemma celulas_fst p L q : (celulas p L q).*1 = L.*1.
Proof. revert p. induction L as [|x L IH]; intros p; simpl; [done|]. by rewrite IH. Qed.

Lemma celulas_chaves p L q : map chave_de (celulas p L q) = map (chave ∘ snd) L.
Proof. revert p. induction L as [|x L IH]; intros p; simpl; [done|]. by rewrite IH. Qed.

Lemma dll_nil ns p q : dll ns p [] q.
Proof. constructor. Qed.

Lemma dll_cons ns p x L q :
  dll ns p (x :: L) q <->
  no_em ns x.1 = Some (No (cabeca L q) p x.2) /\ dll ns x.1 L q.
Proof. unfold dll. cbn [celulas]. by rewrite Forall_cons_iff. Qed.

Lemma dll_app ns p L1 L2 q :
  dll ns p (L1 ++ L2) q <->
  dll ns p L1 (cabeca L2 q) /\ dll ns (ultimo L1 p) L2 q.
Proof. unfold dll. by rewrite celulas_app, Forall_app. Qed.

Lemma dll_quadro ns ns' p L q :
  (forall c, c ∈ L.*1 -> no_em ns' c = no_em ns c) ->
  dll ns p L q -> dll ns' p L q.
Proof.
  intros H. unfold dll. rewrite !list.Forall_forall. intros HL x Hx.
  rewrite H; [by apply HL|].
  rewrite <- (celulas_fst p L q). by apply list_elem_of_fmap_2.
Qed.

Lemma dll_range ns p L q c :
  dll ns p L q -> c ∈ L.*1 -> 1 <= c <= Z.of_nat (length ns).
Proof.
  unfold dll. rewrite list.Forall_forall, <- (celulas_fst p L q).
  intros H [x [-> Hx]]%list_elem_of_fmap. specialize (H x Hx).
  by eapply no_em_Some.
Qed.

Lemma fl_quadro ns ns' F :
  (forall c, c ∈ F -> no_em ns' c = no_em ns c) -> fl ns F -> fl ns' F.
Proof.
  induction F as [|c F IH]; simpl; [done|].
  intros H [[nm Hc] HF]. split.
  - exists nm. rewrite H; [done|]. left.
  - apply IH; [|done]. intros c' Hc'. apply H. by right.
Qed.

Section FatosRep.
Context {a : arquivo} {L : list (Z * dados)} {F : list Z}.
Hypothesis HR : Rep a L F.

Lemma rep_cursor c : c ∈ L.*1 ++ F <-> 1 <= c <= tam (cab a).
Proof. rewrite (rep_perm _ _ _ HR), elem_of_seqZ. lia. Qed.

Lemma rep_NoDup : NoDup (L.*1 ++ F).
Proof. rewrite (rep_perm _ _ _ HR). apply NoDup_seqZ. Qed.

Lemma rep_length : (length L + length F)%nat = length (nos a).
Proof.
  pose proof (Permutation_length (rep_perm _ _ _ HR)) as H.
  rewrite length_app, length_fmap, length_seqZ in H.
  pose proof (rep_tam _ _ _ HR). lia.
Qed.

Lemma rep_cursor_no c : c ∈ L.*1 ++ F -> is_Some (no_em (nos a) c).
Proof.
  intros H%rep_cursor. apply no_em_is_Some.
  rewrite (rep_tam _ _ _ HR). lia.
Qed.
End FatosRep.

(** ** Running file programs *)

Lemma bind_val {A B} (m : io A) (k : A -> io B) a x a' :
  m a = Val x a' -> bind m k a = k x a'.
Proof. unfold bind. by intros ->. Qed.

Lemma lerNo_val a pos l : no_em (nos a) pos = Some l -> lerNo pos a = Val l a.
Proof. unfold lerNo. by intros ->. Qed.

Lemma escreverNo_val a pos l l0 :
  no_em (nos a) pos = Some l0 ->
  escreverNo pos l a = Val tt (Arquivo (cab a) (atualiza (nos a) pos l)).
Proof. unfold escreverNo. by intros ->. Qed.

Lemma cursor_nao_fim ns c l : no_em ns c = Some l -> (c =? -1) = false.
Proof. intros H%no_em_Some. lia. Qed.

(** The three scans skip a prefix of the chain whose cells do not stop
    them. *)
Lemma pesquisa_laco_pula a k p L1 L2 q f :
  dll (nos a) p (L1 ++ L2) q ->
  Forall (fun x => chave x.2 <> k) L1 ->
  pesquisa_laco (length L1 + f) k (cabeca (L1 ++ L2) q) a =
  pesquisa_laco f k (cabeca L2 q) a.
Proof.
  revert p. induction L1 as [|x L1 IH]; intros p HD HK; [done|].
  apply dll_cons in HD as [Hx HD]. inversion_clear HK as [|? ? Hk HK'].
  cbn [app cabeca length Nat.add pesquisa_laco].
  rewrite (cursor_nao_fim _ _ _ Hx).
  rewrite (bind_val _ _ _ _ _ (lerNo_val _ _ _ Hx)). cbn [reg next].
  destruct (Z.eqb_spec (chave x.2) k); [done|].
  by apply IH with x.1.
Qed.

Lemma procura_laco_pula a k p L1 L2 q f ant :
  dll (nos a) p (L1 ++ L2) q ->
  Forall (fun x => chave x.2 <= k) L1 ->
  procura_laco (length L1 + f) k (cabeca (L1 ++ L2) q) ant a =
  procura_laco f k (cabeca L2 q) (ultimo L1 ant) a.
Proof.
  revert p ant. induction L1 as [|x L1 IH]; intros p ant HD HK; [done|].
  apply dll_cons in HD as [Hx HD]. inversion_clear HK as [|? ? Hk HK'].
  cbn [app cabeca ultimo length Nat.add procura_laco].
  rewrite (cursor_nao_fim _ _ _ Hx).
  rewrite (bind_val _ _ _ _ _ (lerNo_val _ _ _ Hx)). cbn [reg next].
  destruct (Z.gtb_spec (chave x.2) k); [lia|].
  by apply IH with x.1.
Qed.

Lemma remover_laco_pula a k c p L1 L2 q f :
  dll (nos a) p (L1 ++ L2) q ->
  Forall (fun x => chave x.2 <> k) L1 ->
  remover_laco (length L1 + f) k c (cabeca (L1 ++ L2) q) a =
  remover_laco f k c (cabeca L2 q) a.
Proof.
  revert p. induction L1 as [|x L1 IH]; intros p HD HK; [done|].
  apply dll_cons in HD as [Hx HD]. inversion_clear HK as [|? ? Hk HK'].
  cbn [app cabeca length Nat.add remover_laco].
  rewrite (cursor_nao_fim _ _ _ Hx).
  rewrite (bind_val _ _ _ _ _ (lerNo_val _ _ _ Hx)). cbn [reg next].
  destruct (Z.eqb_spec (chave x.2) k); [done|].
  by apply IH with x.1.
Qed.

(** ** Relinking segments *)

Lemma dll_atualiza_fora ns p L q c l :
  c ∉ L.*1 -> 1 <= c -> dll ns p L q -> dll (atualiza ns c l) p L q.
Proof.
  intros Hc H1. apply dll_quadro. intros c' Hc'.
  apply no_em_atualiza_ne; [done|]. by intros ->.
Qed.

Lemma fl_atualiza_fora ns F c l :
  c ∉ F -> 1 <= c -> fl ns F -> fl (atualiza ns c l) F.
Proof.
  intros Hc H1. apply fl_quadro. intros c' Hc'.
  apply no_em_atualiza_ne; [done|]. by intros ->.
Qed.

(** The last cell of a segment gets a new [next]. *)
Lemma dll_religa_fim ns p L y q q' :
  NoDup (L ++ [y]).*1 ->
  dll ns p (L ++ [y]) q ->
  dll (atualiza ns y.1 (No q' (ultimo L p) y.2)) p (L ++ [y]) q'.
Proof.
  rewrite fmap_app. intros [HL [Hy _]]%list.NoDup_app.
  rewrite !dll_app. intros [H1 H2].
  apply dll_cons in H2 as [Hc _]. pose proof (no_em_Some _ _ _ Hc) as Hr.
  split.
  - apply dll_atualiza_fora; [|lia|done].
    intros Hin. apply (Hy _ Hin). simpl. left.
  - apply dll_cons. split; [|apply dll_nil].
    by eapply no_em_atualiza_eq.
Qed.

(** The first cell of a segment gets a new [prev]. *)
Lemma dll_religa_inicio ns p p' x L q :
  NoDup (x :: L).*1 ->
  dll ns p (x :: L) q ->
  dll (atualiza ns x.1 (No (cabeca L q) p' x.2)) p' (x :: L) q.
Proof.
  rewrite fmap_cons. intros [Hx HL]%list.NoDup_cons.
  rewrite !dll_cons. intros [Hc H2].
  pose proof (no_em_Some _ _ _ Hc) as Hr. split.
  - by eapply no_em_atualiza_eq.
  - apply dll_atualiza_fora; [done|lia|done].
Qed.

(** A new cell is written between two segments already linked to it. *)
Lemma dll_insere ns p L1 L2 q c d l0 :
  no_em ns c = Some l0 ->
  c ∉ (L1 ++ L2).*1 ->
  dll ns p L1 c -> dll ns c L2 q ->
  dll (atualiza ns c (No (cabeca L2 q) (ultimo L1 p) d)) p
      (L1 ++ (c, d) :: L2) q.
Proof.
  intros Hc Hn H1 H2. pose proof (no_em_Some _ _ _ Hc) as Hr.
  rewrite fmap_app in Hn. apply not_elem_of_app in Hn as [Hn1 Hn2].
  apply dll_app. split; [|apply dll_cons; split].
  - apply dll_atualiza_fora; [done|lia|done].
  - by eapply no_em_atualiza_eq.
  - apply dll_atualiza_fora; [done|lia|done].
Qed.

Lemma separa_chave k (L : list (Z * dados)) :
  Forall (fun x => chave x.2 <> k) L \/
  exists L1 x L2, L = L1 ++ x :: L2 /\
                  Forall (fun x => chave x.2 <> k) L1 /\ chave x.2 = k.
Proof.
  induction L as [|y L IH]; [by left|].
  destruct (decide (chave y.2 = k)) as [Hy|Hy].
  - right. by exists [], y, L.
  - destruct IH as [IH|(L1 & x & L2 & -> & H1 & Hx)].
    + left. by constructor.
    + right. exists (y :: L1), x, L2. split_and!; [done| by constructor |done].
Qed.

Lemma separa_maior k (L : list (Z * dados)) :
  exists L1 L2, L = L1 ++ L2 /\
                Forall (fun x => chave x.2 <= k) L1 /\
                match L2 with [] => True | x :: _ => chave x.2 > k end.
Proof.
  induction L as [|y L IH]; [by exists [], []|].
  destruct (decide (chave y.2 <= k)) as [Hy|Hy].
  - destruct IH as (L1 & L2 & -> & H1 & H2).
    exists (y :: L1), L2. split_and!; [done| by constructor |done].
  - exists [], (y :: L). split_and!; [done|constructor|simpl; lia].
Qed.

Arguments wrap : simpl never.
Arguments atualiza : simpl never.
Arguments no_em : simpl never.

Lemma bind_ret {A B} (x : A) (k : A -> io B) a : bind (ret x) k a = k x a.
Proof. done. Qed.

Lemma bind_lerCab {B} (k : cabecalho -> io B) a : bind lerCab k a = k (cab a) a.
Proof. done. Qed.

Lemma bind_escreverCab {B} c (k : unit -> io B) a :
  bind (escreverCab c) k a = k tt (Arquivo c (nos a)).
Proof. done. Qed.

Lemma separa_ultimo {A} (L : list A) : L = [] \/ exists L0 y, L = L0 ++ [y].
Proof. destruct L as [|y L0] using rev_ind; [by left|right; eauto]. Qed.

Lemma pesquisa_ausente a L F k :
  Rep a L F -> Forall (fun x => chave x.2 <> k) L -> pesquisa k a = Val None a.
Proof.
  intros HR HK. unfold pesquisa. rewrite bind_lerCab.
  unfold combustivel at 1, bind at 1.
  pose proof (rep_length HR) as Hlen.
  pose proof (pesquisa_laco_pula a k (-1) L [] (-1)
                (S (length (nos a) - length L))) as H.
  rewrite app_nil_r in H.
  replace (S (length (nos a))) with
    (length L + S (length (nos a) - length L))%nat by lia.
  rewrite (rep_first _ _ _ HR), H; [done| apply HR | done].
Qed.

Lemma pesquisa_presente a L1 x L2 F :
  Rep a (L1 ++ x :: L2) F ->
  Forall (fun y => chave y.2 <> chave x.2) L1 ->
  pesquisa (chave x.2) a =
  Val (Some (No (cabeca L2 (-1)) (ultimo L1 (-1)) x.2)) a.
Proof.
  intros HR HK. unfold pesquisa. rewrite bind_lerCab.
  unfold combustivel at 1, bind at 1.
  pose proof (rep_length HR) as Hlen. rewrite length_app in Hlen. simpl in Hlen.
  pose proof (rep_dll _ _ _ HR) as HD.
  replace (S (length (nos a))) with
    (length L1 + S (length (nos a) - length L1))%nat by lia.
  rewrite (rep_first _ _ _ HR), (pesquisa_laco_pula a _ (-1) L1); [|done..].
  apply dll_app in HD as [_ HD]. apply dll_cons in HD as [Hx _].
  cbn [cabeca pesquisa_laco].
  rewrite (cursor_nao_fim _ _ _ Hx), (bind_val _ _ _ _ _ (lerNo_val _ _ _ Hx)).
  cbn [reg]. by rewrite Z.eqb_refl.
Qed.

(** ** The insertions on a well-formed file *)

Lemma wrap_suc (n : nat) : Z.of_nat n < INT_MAX -> wrap (Z.of_nat n + 1) = Z.of_nat (S n).
Proof. intros H. rewrite wrap_id; unfold INT_MAX in *; lia. Qed.

Section Insercao.
Context {a : arquivo} {L : list (Z * dados)} {F : list Z} (d : dados).
Hypothesis HR : Rep a L F.

Lemma rep_quant_max : F <> [] -> Z.of_nat (length L) < INT_MAX.
Proof.
  intros HF. pose proof (rep_length HR). pose proof (rep_tam _ _ _ HR).
  pose proof (rep_max _ _ _ HR). destruct F; [done|]. simpl in *. lia.
Qed.

Lemma inserir_existente :
  ~ Forall (fun x => chave x.2 <> chave d) L ->
  inserir d a = Val ChaveJaExistente a /\
  inserirOrdenado d a = Val ChaveJaExistente a.
Proof.
  intros HK. destruct (separa_chave (chave d) L)
    as [?|(L1 & x & L2 & -> & H1 & Hx)]; [done|].
  rewrite <- Hx in H1. pose proof (pesquisa_presente _ _ _ _ _ HR H1) as HP.
  rewrite Hx in HP. unfold inserir, inserirOrdenado.
  by rewrite !(bind_val _ _ _ _ _ HP).
Qed.

Hypothesis HK : Forall (fun x => chave x.2 <> chave d) L.

Lemma inserir_cheio :
  F = [] ->
  inserir d a = Val ArquivoCheio a /\
  inserirOrdenado d a = Val ArquivoCheio a.
Proof.
  intros ->. unfold inserir, inserirOrdenado.
  rewrite !(bind_val _ _ _ _ _ (pesquisa_ausente _ _ _ _ HR HK)).
  rewrite !bind_lerCab. by rewrite (rep_free _ _ _ HR).
Qed.
End Insercao.


Lemma religa_val a pos l (f : no -> no) :
  no_em (nos a) pos = Some l ->
  (x <- lerNo pos ;; escreverNo pos (f x)) a =
  Val tt (Arquivo (cab a) (atualiza (nos a) pos (f l))).
Proof.
  intros H. rewrite (bind_val _ _ _ _ _ (lerNo_val _ _ _ H)).
  by eapply escreverNo_val.
Qed.

Lemma dll_ultimo ns p L y q :
  dll ns p (L ++ [y]) q -> no_em ns y.1 = Some (No q (ultimo L p) y.2).
Proof. intros [_ [H _]%dll_cons]%dll_app. done. Qed.

Lemma dll_primeiro ns p x L q :
  dll ns p (x :: L) q -> no_em ns x.1 = Some (No (cabeca L q) p x.2).
Proof. by intros [H _]%dll_cons. Qed.

Lemma inserir_ok a L c F d :
  Rep a L (c :: F) -> Forall (fun x => chave x.2 <> chave d) L ->
  exists a', inserir d a = Val Inserido a' /\ Rep a' (L ++ [(c, d)]) F.
Proof.
  intros HR HK. pose proof (rep_NoDup HR) as ND.
  pose proof (rep_fl _ _ _ HR) as [[nm Hc] HF].
  pose proof (rep_dll _ _ _ HR) as HD.
  pose proof (rep_quant_max HR ltac:(done)) as Hq.
  pose proof (no_em_Some _ _ _ Hc) as Hc1.
  apply list.NoDup_app in ND as (NL & NLF & [NcF NF]%list.NoDup_cons).
  assert (c ∉ L.*1) as NcL by (intros Hin%NLF; apply Hin; left).
  unfold inserir.
  rewrite (bind_val _ _ _ _ _ (pesquisa_ausente _ _ _ _ HR HK)).
  rewrite bind_lerCab, (rep_free _ _ _ HR). cbn [hd].
  rewrite (cursor_nao_fim _ _ _ Hc), (bind_val _ _ _ _ _ (lerNo_val _ _ _ Hc)).
  cbn [next]. rewrite (rep_last _ _ _ HR), (rep_first _ _ _ HR), (rep_quant _ _ _ HR).
  rewrite (wrap_suc _ Hq).
  destruct (separa_ultimo L) as [->|(L0 & y & ->)].
  - cbn [ultimo cabeca]. change (-1 =? -1) with true. cbn [negb].
    rewrite bind_ret, (bind_val _ _ _ _ _ (escreverNo_val _ _ _ _ Hc)).
    rewrite bind_escreverCab. eexists. split; [reflexivity|].
    constructor; cbn [cab nos quant first last free tam app length cabeca ultimo];
      [done|done|done|done| |apply HR| | |].
    + rewrite length_atualiza. apply HR.
    + apply (dll_insere _ (-1) [] [] (-1) c d _ Hc); [set_solver|apply dll_nil..].
    + apply fl_atualiza_fora; [done|lia|done].
    + by rewrite <- (rep_perm _ _ _ HR).
  - pose proof (dll_ultimo _ _ _ _ _ HD) as Hy.
    pose proof (no_em_Some _ _ _ Hy) as Hy1.
    assert (Hu : ultimo (L0 ++ [y]) (-1) = y.1) by (by rewrite ultimo_app).
    assert (Hcy : c <> y.1).
    { intros ->. apply NcL. rewrite fmap_app. apply elem_of_app. right. left. }
    assert (Hh : (cabeca (L0 ++ [y]) (-1) =? -1) = false).
    { destruct L0 as [|x L0]; [by eapply cursor_nao_fim|].
      apply dll_primeiro in HD. by eapply cursor_nao_fim. }
    rewrite Hh, Hu, (cursor_nao_fim _ _ _ Hy). cbn [negb].
    rewrite (bind_val _ _ _ _ _ (religa_val _ _ _ (fun x => com_next x c) Hy)).
    cbn [com_next prev reg].
    pose proof (no_em_atualiza_ne (nos a) y.1 (No c (ultimo L0 (-1)) y.2) c
                  ltac:(lia) Hcy) as Hc'.
    rewrite Hc in Hc'.
    rewrite (bind_val _ _ _ _ _ (escreverNo_val (Arquivo _ _) _ _ _ Hc')).
    rewrite bind_escreverCab. eexists. split; [reflexivity|].
    constructor; cbn [cab nos quant first last free tam hd];
      [ | | |done| |apply HR| | |].
    + rewrite !length_app. simpl. lia.
    + by destruct L0.
    + by rewrite !ultimo_app.
    + rewrite !length_atualiza. apply HR.
    + replace (No (-1) y.1 d) with
        (No (cabeca [] (-1)) (ultimo (L0 ++ [y]) (-1)) d) by (by rewrite Hu).
      eapply dll_insere.
      * apply Hc'.
      * by rewrite app_nil_r.
      * by apply (dll_religa_fim _ _ _ _ (-1)).
      * apply dll_nil.
    + apply fl_atualiza_fora; [done|lia|].
      apply fl_atualiza_fora; [|lia|done].
      intros Hin. eapply (NLF y.1); [|by right].
      rewrite fmap_app. apply elem_of_app. right. left.
    + rewrite <- (rep_perm _ _ _ HR), fmap_app, <- app_assoc. done.
Qed.

Lemma bind_combustivel {B} (k : nat -> io B) a :
  bind combustivel k a = k (S (length (nos a))) a.
Proof. done. Qed.

Lemma bind_assoc {A B C} (m : io A) (k1 : A -> io B) (k2 : B -> io C) a :
  bind (bind m k1) k2 a = bind m (fun x => bind (k1 x) k2) a.
Proof. unfold bind. by destruct (m a). Qed.

Lemma procura_val a L1 L2 F k :
  Rep a (L1 ++ L2) F ->
  Forall (fun x => chave x.2 <= k) L1 ->
  match L2 with [] => True | x :: _ => chave x.2 > k end ->
  procura_laco (S (length (nos a))) k (cabeca (L1 ++ L2) (-1)) (-1) a =
  Val (cabeca L2 (-1), ultimo L1 (-1)) a.
Proof.
  intros HR H1 H2. pose proof (rep_length HR) as Hlen.
  pose proof (rep_dll _ _ _ HR) as HD. rewrite length_app in Hlen.
  replace (S (length (nos a))) with
    (length L1 + S (length (nos a) - length L1))%nat by lia.
  rewrite (procura_laco_pula a k (-1) L1); [|done..].
  apply dll_app in HD as [_ HD]. destruct L2 as [|x L2]; [done|].
  apply dll_primeiro in HD. cbn [cabeca procura_laco].
  rewrite (cursor_nao_fim _ _ _ HD), (bind_val _ _ _ _ _ (lerNo_val _ _ _ HD)).
  cbn [reg]. by destruct (Z.gtb_spec (chave x.2) k); [|lia].
Qed.

(** The state after the new cell and the header are written, once the
    neighbours of the new cell point to it. *)
Lemma rep_inserido a L1 L2 c F d ns1 h novo l0 :
  Rep a (L1 ++ L2) (c :: F) ->
  quant h = Z.of_nat (S (length (L1 ++ L2))) ->
  first h = cabeca (L1 ++ (c, d) :: L2) (-1) ->
  last h = ultimo (L1 ++ (c, d) :: L2) (-1) ->
  free h = hd (-1) F ->
  tam h = tam (cab a) ->
  novo = No (cabeca L2 (-1)) (ultimo L1 (-1)) d ->
  length ns1 = length (nos a) ->
  no_em ns1 c = Some l0 ->
  dll ns1 (-1) L1 c -> dll ns1 c L2 (-1) -> fl ns1 F ->
  Rep (Arquivo h (atualiza ns1 c novo)) (L1 ++ (c, d) :: L2) F.
Proof.
  intros HR Hq Hf Hl Hfr Ht -> Hlen Hc HD1 HD2 HF.
  pose proof (rep_NoDup HR) as ND.
  apply list.NoDup_app in ND as (NL & NLF & [NcF NF]%list.NoDup_cons).
  assert (c ∉ (L1 ++ L2).*1) as NcL by (intros Hin%NLF; apply Hin; left).
  pose proof (no_em_Some _ _ _ Hc) as Hc1.
  constructor; cbn [cab nos]; [| done..| | | | |].
  - rewrite Hq, !length_app. simpl. lia.
  - rewrite length_atualiza, Hlen, Ht. apply HR.
  - rewrite Ht. apply HR.
  - by eapply dll_insere.
  - apply fl_atualiza_fora; [done|lia|done].
  - rewrite Ht, <- (rep_perm _ _ _ HR), !fmap_app, fmap_cons, <- !app_assoc.
    cbn [fst]. apply Permutation_app_head. apply Permutation_middle.
Qed.

Lemma inserirOrdenado_ok a L1 L2 c F d :
  Rep a (L1 ++ L2) (c :: F) ->
  Forall (fun x => chave x.2 <> chave d) (L1 ++ L2) ->
  Forall (fun x => chave x.2 <= chave d) L1 ->
  match L2 with [] => True | x :: _ => chave x.2 > chave d end ->
  exists a', inserirOrdenado d a = Val Inserido a' /\
             Rep a' (L1 ++ (c, d) :: L2) F.
Proof.
  intros HR HK H1 H2. pose proof (rep_NoDup HR) as ND.
  pose proof (rep_fl _ _ _ HR) as [[nm Hc] HF].
  pose proof (rep_dll _ _ _ HR) as HD.
  pose proof (rep_quant_max HR ltac:(done)) as Hq.
  pose proof (no_em_Some _ _ _ Hc) as Hc1.
  pose proof (procura_val _ _ _ _ _ HR H1 H2) as HP.
  apply list.NoDup_app in ND as (NL & NLF & [NcF NF]%list.NoDup_cons).
  assert (c ∉ (L1 ++ L2).*1) as NcL by (intros Hin%NLF; apply Hin; left).
  unfold inserirOrdenado.
  rewrite (bind_val _ _ _ _ _ (pesquisa_ausente _ _ _ _ HR HK)).
  rewrite bind_lerCab, (rep_free _ _ _ HR). cbn [hd].
  rewrite (cursor_nao_fim _ _ _ Hc), (bind_val _ _ _ _ _ (lerNo_val _ _ _ Hc)).
  cbn [next]. rewrite (rep_last _ _ _ HR), (rep_first _ _ _ HR), (rep_quant _ _ _ HR).
  destruct (separa_ultimo L1) as [E1|(L0 & y & E1)].
  - subst L1. cbn [app cabeca] in *. destruct L2 as [|x L2].
    + (* empty list *)
      cbn [cabeca]. change (-1 =? -1) with true. cbv iota.
      rewrite bind_ret. cbn [fst snd free quant first last tam].
      rewrite (bind_val _ _ _ _ _ (escreverNo_val _ _ _ _ Hc)), bind_escreverCab.
      eexists. split; [reflexivity|].
      eapply (rep_inserido a [] []); done.
    + (* before the first cell *)
      cbn [cabeca] in *.
      pose proof (dll_primeiro _ _ _ _ _ HD) as Hx.
      pose proof (no_em_Some _ _ _ Hx) as Hx1.
      rewrite (cursor_nao_fim _ _ _ Hx), bind_assoc, bind_combustivel.
      rewrite bind_assoc, (bind_val _ _ _ _ _ HP). cbn [fst snd cabeca].
      rewrite Z.eqb_refl, !bind_assoc.
      rewrite (bind_val _ _ _ _ _ (lerNo_val _ _ _ Hx)), bind_assoc.
      rewrite (bind_val _ _ _ _ _ (escreverNo_val _ _ _ _ Hx)), bind_ret.
      cbn [fst snd free quant first last tam com_prev next reg].
      assert (Hcx : c <> x.1) by (intros ->; apply NcL; left).
      set (ns1 := atualiza (nos a) x.1 _).
      assert (Hc' : no_em ns1 c = Some (No (hd (-1) F) (-1) (Dados (-1) nm))).
      { unfold ns1. rewrite no_em_atualiza_ne; [done|lia|done]. }
      rewrite (bind_val _ _ _ _ _ (escreverNo_val (Arquivo _ ns1) _ _ _ Hc')).
      rewrite bind_escreverCab. eexists. split; [reflexivity|]. cbn [cab nos].
      eapply (rep_inserido a [] (x :: L2)); try done; try apply dll_nil.
      * by apply wrap_suc.
      * apply length_atualiza.
      * by apply (dll_religa_inicio _ (-1)).
      * apply fl_atualiza_fora; [|lia|done].
        intros Hin. eapply (NLF x.1); [left|by right].
  - assert (Eu : ultimo L1 (-1) = y.1) by (by rewrite E1, ultimo_app).
    assert (Hy : no_em (nos a) y.1 =
                 Some (No (cabeca L2 (-1)) (ultimo L0 (-1)) y.2)).
    { apply dll_app in HD as [HD1 _]. rewrite E1 in HD1.
      by apply dll_ultimo in HD1. }
    assert (Hh : (cabeca (L1 ++ L2) (-1) =? -1) = false).
    { rewrite E1 in HD |- *. destruct L0;
        apply dll_primeiro in HD; by eapply cursor_nao_fim. }
    assert (Hcy : c <> y.1).
    { intros ->. apply NcL. rewrite E1, !fmap_app, !elem_of_app.
      left; right; left. }
    assert (NyF : y.1 ∉ F).
    { intros Hin. eapply (NLF y.1); [|by right].
      rewrite E1, !fmap_app, !elem_of_app. left; right; left. }
    pose proof (no_em_Some _ _ _ Hy) as Hy1.
    rewrite Hh, bind_assoc, bind_combustivel.
    rewrite bind_assoc, (bind_val _ _ _ _ _ HP). cbn [fst snd].
    destruct L2 as [|x L2].
    + (* after the last cell *)
      cbn [cabeca] in Hy |- *.
      rewrite Z.eqb_sym, Hh. change (-1 =? -1) with true. cbv iota.
      rewrite ultimo_app. cbn [ultimo]. rewrite Eu, !bind_assoc.
      rewrite (bind_val _ _ _ _ _ (lerNo_val _ _ _ Hy)), bind_assoc.
      rewrite (bind_val _ _ _ _ _ (escreverNo_val _ _ _ _ Hy)), bind_ret.
      cbn [fst snd free quant first last tam com_next prev reg].
      set (ns1 := atualiza (nos a) y.1 _).
      assert (Hc' : no_em ns1 c = Some (No (hd (-1) F) (-1) (Dados (-1) nm))).
      { unfold ns1. rewrite no_em_atualiza_ne; [done|lia|done]. }
      rewrite (bind_val _ _ _ _ _ (escreverNo_val (Arquivo _ ns1) _ _ _ Hc')).
      rewrite bind_escreverCab. eexists. split; [reflexivity|]. cbn [cab nos].
      eapply (rep_inserido a L1 []); try done; try apply dll_nil.
      * by apply wrap_suc.
      * cbn [first]. rewrite E1. by destruct L0.
      * cbn [last]. by rewrite ultimo_app.
      * by rewrite Eu.
      * apply length_atualiza.
      * rewrite app_nil_r in HD, NL. rewrite E1 in HD, NL |- *.
        by apply (dll_religa_fim _ _ _ _ (-1)).
      * apply fl_atualiza_fora; [done|lia|done].
    + (* between two cells *)
      pose proof HD as HD'. apply dll_app in HD' as [HD1 HD2].
      pose proof (dll_primeiro _ _ _ _ _ HD2) as Hx.
      pose proof (no_em_Some _ _ _ Hx) as Hx1.
      pose proof NL as NL'. rewrite fmap_app in NL'.
      apply list.NoDup_app in NL' as (NL1 & NL12 & NL2).
      assert (NxL1 : x.1 ∉ L1.*1) by (intros Hin%NL12; apply Hin; left).
      assert (Hxy : x.1 <> y.1).
      { intros Heq. apply NxL1. rewrite Heq, E1, fmap_app, elem_of_app.
        right; left. }
      assert (NyL2 : y.1 ∉ (x :: L2).*1).
      { apply NL12. rewrite E1, fmap_app, elem_of_app. right; left. }
      assert (Hxf : (x.1 =? cabeca (L1 ++ x :: L2) (-1)) = false).
      { apply Z.eqb_neq. intros Heq. apply NxL1. rewrite Heq, E1.
        destruct L0; left. }
      assert (NxF : x.1 ∉ F).
      { intros Hin. eapply (NLF x.1); [|by right].
        rewrite fmap_app, elem_of_app. right; left. }
      assert (Hcx : c <> x.1).
      { intros ->. apply NcL. rewrite fmap_app, elem_of_app. right; left. }
      cbn [cabeca] in *. rewrite Hxf, (cursor_nao_fim _ _ _ Hx), Eu, !bind_assoc.
      rewrite (bind_val _ _ _ _ _ (lerNo_val _ _ _ Hy)), bind_assoc.
      rewrite (bind_val _ _ _ _ _ (escreverNo_val _ _ _ _ Hy)), bind_assoc.
      cbn [com_next prev reg]. set (ns1 := atualiza (nos a) y.1 _).
      assert (Hx' : no_em ns1 x.1 =
                    Some (No (cabeca L2 (-1)) (ultimo L1 (-1)) x.2)).
      { unfold ns1. rewrite no_em_atualiza_ne; [done|lia|done]. }
      rewrite (bind_val _ _ _ _ _ (lerNo_val (Arquivo _ ns1) _ _ Hx')), bind_assoc.
      rewrite (bind_val _ _ _ _ _ (escreverNo_val (Arquivo _ ns1) _ _ _ Hx')).
      rewrite bind_ret. cbn [fst snd free quant first last tam com_prev next reg cab nos].
      set (ns2 := atualiza ns1 x.1 _).
      assert (Hc' : no_em ns2 c = Some (No (hd (-1) F) (-1) (Dados (-1) nm))).
      { unfold ns2, ns1. rewrite !no_em_atualiza_ne; [done|lia|done|lia|done]. }
      rewrite (rep_free _ _ _ HR), (rep_quant _ _ _ HR). cbn [hd].
      rewrite (bind_val _ _ _ _ _ (escreverNo_val (Arquivo _ ns2) _ _ _ Hc')).
      rewrite bind_escreverCab. eexists. split; [reflexivity|]. cbn [cab nos].
      eapply (rep_inserido a L1 (x :: L2)); try done.
      * by apply wrap_suc.
      * rewrite (rep_first _ _ _ HR), E1. by destruct L0.
      * rewrite (rep_last _ _ _ HR), !ultimo_app. done.
      * by rewrite Eu.
      * unfold ns2, ns1. by rewrite !length_atualiza.
      * apply dll_atualiza_fora; [done|lia|]. unfold ns1.
        rewrite E1 in HD1, NL1 |- *.
        by apply (dll_religa_fim _ _ _ _ x.1).
      * unfold ns2. apply (dll_religa_inicio _ (ultimo L1 (-1))); [done|].
        apply dll_atualiza_fora; [done|lia|done].
      * apply fl_atualiza_fora; [done|lia|].
        apply fl_atualiza_fora; [done|lia|done].
Qed.

(** ** The removal on a well-formed file *)

Lemma remover_ausente a L F k :
  Rep a L F -> Forall (fun x => chave x.2 <> k) L -> remover k a = Val false a.
Proof.
  intros HR HK. unfold remover. rewrite bind_lerCab, bind_combustivel.
  pose proof (rep_length HR) as Hlen.
  pose proof (remover_laco_pula a k (cab a) (-1) L [] (-1)
                (S (length (nos a) - length L))) as H.
  rewrite app_nil_r in H.
  replace (S (length (nos a))) with
    (length L + S (length (nos a) - length L))%nat by lia.
  rewrite (rep_first _ _ _ HR), H; [done| apply HR | done].
Qed.

(** The predecessor of the removed cell is linked to its successor [q']. *)
Lemma remover_anterior a L1 q q' f0 :
  dll (nos a) (-1) L1 q -> NoDup L1.*1 ->
  (L1 <> [] -> f0 = cabeca L1 q') ->
  exists ns1,
    (if negb (ultimo L1 (-1) =? -1) then
       anterior <- lerNo (ultimo L1 (-1)) ;;
       escreverNo (ultimo L1 (-1)) (com_next anterior q') ;;;
       ret f0
     else ret q') a = Val (cabeca L1 q') (Arquivo (cab a) ns1) /\
    length ns1 = length (nos a) /\
    dll ns1 (-1) L1 q' /\
    (forall c, c ∉ L1.*1 -> no_em ns1 c = no_em (nos a) c).
Proof.
  intros HD ND Hf. destruct (separa_ultimo L1) as [->|(L0 & y & ->)].
  - exists (nos a). cbn [ultimo cabeca]. change (-1 =? -1) with true.
    split_and!; [by destruct a|done|apply dll_nil|done].
  - pose proof (dll_ultimo _ _ _ _ _ HD) as Hy.
    pose proof (no_em_Some _ _ _ Hy) as Hy1.
    rewrite ultimo_app. cbn [ultimo].
    rewrite (cursor_nao_fim _ _ _ Hy). cbn [negb].
    rewrite (bind_val _ _ _ _ _ (lerNo_val _ _ _ Hy)).
    rewrite (bind_val _ _ _ _ _ (escreverNo_val _ _ _ _ Hy)).
    eexists. split_and!.
    + unfold ret. f_equal. apply Hf. by destruct L0.
    + apply length_atualiza.
    + by apply (dll_religa_fim _ _ _ _ q).
    + intros c Hc. apply no_em_atualiza_ne; [lia|]. intros ->.
      apply Hc. rewrite fmap_app, elem_of_app. right; left.
Qed.

(** The successor of the removed cell is linked to its predecessor [p']. *)
Lemma remover_proximo a p p' L2 l0 :
  dll (nos a) p L2 (-1) -> NoDup L2.*1 ->
  (L2 <> [] -> l0 = ultimo L2 p') ->
  exists ns2,
    (if negb (cabeca L2 (-1) =? -1) then
       proximo <- lerNo (cabeca L2 (-1)) ;;
       escreverNo (cabeca L2 (-1)) (com_prev proximo p') ;;;
       ret l0
     else ret p') a = Val (ultimo L2 p') (Arquivo (cab a) ns2) /\
    length ns2 = length (nos a) /\
    dll ns2 p' L2 (-1) /\
    (forall c, c ∉ L2.*1 -> no_em ns2 c = no_em (nos a) c).
Proof.
  intros HD ND Hl. destruct L2 as [|x L2].
  - exists (nos a). cbn [ultimo cabeca]. change (-1 =? -1) with true.
    split_and!; [by destruct a|done|apply dll_nil|done].
  - pose proof (dll_primeiro _ _ _ _ _ HD) as Hx.
    pose proof (no_em_Some _ _ _ Hx) as Hx1. cbn [cabeca].
    rewrite (cursor_nao_fim _ _ _ Hx). cbn [negb].
    rewrite (bind_val _ _ _ _ _ (lerNo_val _ _ _ Hx)).
    rewrite (bind_val _ _ _ _ _ (escreverNo_val _ _ _ _ Hx)).
    eexists. split_and!.
    + unfold ret. f_equal. by apply Hl.
    + apply length_atualiza.
    + by apply (dll_religa_inicio _ p).
    + intros c Hc. apply no_em_atualiza_ne; [lia|]. intros ->.
      apply Hc. left.
Qed.

Lemma remover_ok a L1 x L2 F :
  Rep a (L1 ++ x :: L2) F ->
  Forall (fun y => chave y.2 <> chave x.2) L1 ->
  exists a', remover (chave x.2) a = Val true a' /\
             Rep a' (L1 ++ L2) (x.1 :: F).
Proof.
  intros HR HK. pose proof (rep_NoDup HR) as ND.
  pose proof (rep_dll _ _ _ HR) as HD.
  pose proof (rep_length HR) as Hlen. rewrite length_app in Hlen.
  cbn [length] in Hlen.
  rewrite fmap_app, fmap_cons in ND.
  apply list.NoDup_app in ND as (NL & NLF & NF).
  apply list.NoDup_app in NL as (NL1 & NL12 & [NxL2 NL2]%list.NoDup_cons).
  assert (NxL1 : x.1 ∉ L1.*1) by (intros Hin%NL12; apply Hin; left).
  assert (NxF : x.1 ∉ F).
  { apply NLF. rewrite elem_of_app. right; left. }
  pose proof HD as HD'. apply dll_app in HD' as [HD1 HD2].
  pose proof (dll_primeiro _ _ _ _ _ HD2) as Hx.
  pose proof (no_em_Some _ _ _ Hx) as Hx1.
  apply dll_cons in HD2 as [_ HD2]. cbn [cabeca] in HD1.
  unfold remover. rewrite bind_lerCab, bind_combustivel.
  replace (S (length (nos a))) with
    (length L1 + S (length (nos a) - length L1))%nat by lia.
  rewrite (rep_first _ _ _ HR), (remover_laco_pula a _ _ (-1) L1); [|done..].
  cbn [cabeca remover_laco].
  rewrite (cursor_nao_fim _ _ _ Hx), (bind_val _ _ _ _ _ (lerNo_val _ _ _ Hx)).
  cbn [reg prev next nome]. rewrite Z.eqb_refl.
  destruct (remover_anterior a L1 x.1 (cabeca L2 (-1)) (first (cab a)) HD1 NL1)
    as (ns1 & E1 & Hlen1 & HD1' & Hq1).
  { intros HL1. rewrite (rep_first _ _ _ HR). by destruct L1. }
  rewrite (bind_val _ _ _ _ _ E1).
  destruct (remover_proximo (Arquivo (cab a) ns1) x.1 (ultimo L1 (-1)) L2
              (last (cab a))) as (ns2 & E2 & Hlen2 & HD2' & Hq2).
  { cbn [nos]. eapply dll_quadro; [|exact HD2].
    intros c Hc. apply Hq1. intros Hc'%NL12. apply Hc'. by right. }
  { done. }
  { intros HL2. rewrite (rep_last _ _ _ HR), ultimo_app. by destruct L2. }
  rewrite (bind_val _ _ _ _ _ E2). cbn [nos cab] in *.
  assert (Hx2 : no_em ns2 x.1 = no_em (nos a) x.1).
  { rewrite Hq2, Hq1; done. }
  rewrite Hx in Hx2.
  rewrite (bind_val _ _ _ _ _ (escreverNo_val (Arquivo _ ns2) _ _ _ Hx2)).
  rewrite bind_escreverCab. eexists. split; [reflexivity|].
  assert (Hquant : wrap (quant (cab a) - 1) = Z.of_nat (length (L1 ++ L2))).
  { rewrite (rep_quant _ _ _ HR), !length_app. cbn [length].
    pose proof (rep_tam _ _ _ HR). pose proof (rep_max _ _ _ HR).
    rewrite wrap_id; unfold INT_MAX in *; lia. }
  rewrite Hquant.
  assert (Hcab : (if Z.of_nat (length (L1 ++ L2)) =? 0
    then {| quant := Z.of_nat (length (L1 ++ L2)); first := -1; last := -1;
            free := x.1; tam := tam (cab a) |}
    else {| quant := Z.of_nat (length (L1 ++ L2));
            first := cabeca L1 (cabeca L2 (-1));
            last := ultimo L2 (ultimo L1 (-1));
            free := x.1; tam := tam (cab a) |}) =
    {| quant := Z.of_nat (length (L1 ++ L2));
       first := cabeca (L1 ++ L2) (-1); last := ultimo (L1 ++ L2) (-1);
       free := x.1; tam := tam (cab a) |}).
  { rewrite cabeca_app, ultimo_app.
    destruct (Z.eqb_spec (Z.of_nat (length (L1 ++ L2))) 0) as [E0|]; [|done].
    destruct L1; [destruct L2|]; [done|simpl in E0; lia..]. }
  rewrite Hcab. clear Hcab.
  constructor; cbn [cab nos quant first last free tam hd]; try done.
  - rewrite length_atualiza, Hlen2, Hlen1. apply HR.
  - apply HR.
  - apply dll_app. split.
    + apply dll_atualiza_fora; [done|lia|].
      eapply dll_quadro; [|exact HD1']. intros c Hc. apply Hq2.
      intros Hc'. eapply NL12; [exact Hc|by right].
    + apply dll_atualiza_fora; [done|lia|done].
  - cbn [fl]. split.
    + eexists. rewrite (rep_free _ _ _ HR). by eapply no_em_atualiza_eq.
    + apply fl_atualiza_fora; [done|lia|]. eapply fl_quadro; [|apply HR].
      intros c Hc. rewrite Hq2, Hq1; [done| |].
      * intros Hc'. eapply NLF; [|exact Hc]. rewrite elem_of_app. by left.
      * intros Hc'. eapply NLF; [|exact Hc]. rewrite elem_of_app. right. by right.
  - rewrite <- (rep_perm _ _ _ HR), !fmap_app, fmap_cons, <- !app_assoc.
    apply Permutation_app_head. cbn [app].
    symmetry. apply Permutation_middle.
Qed.

(** ** inicializar *)

Lemma inicializar_laco_val n lixo k : forall i escritos,
  n < INT_MAX -> 1 <= i -> Z.of_nat k = n - i + 1 ->
  inicializar_laco k i n lixo escritos =
  Some (escritos ++ ((fun j => no_inicial j n lixo) <$> seqZ i (Z.of_nat k))).
Proof.
  induction k as [|k IH]; intros i escritos Hn Hi Hk.
  - cbn [inicializar_laco]. destruct (Z.leb_spec i n); [lia|].
    by rewrite app_nil_r.
  - cbn [inicializar_laco]. destruct (Z.leb_spec i n); [|lia].
    rewrite wrap_id by (unfold INT_MAX in *; lia).
    rewrite IH by lia. rewrite <- app_assoc. f_equal.
    rewrite (seqZ_cons i (Z.of_nat (S k))) by lia. cbn [fmap list_fmap app].
    do 3 f_equal. f_equal; lia.
Qed.

Lemma inicializar_val n lixo :
  n < INT_MAX ->
  inicializar n lixo =
  Some (Arquivo (Cabecalho 0 (-1) (-1) 1 n)
                ((fun j => no_inicial j n lixo) <$> seqZ 1 n)).
Proof.
  intros Hn. unfold inicializar. destruct (Z.le_gt_cases n 0) as [H0|H0].
  - replace (Z.to_nat n) with 0%nat by lia. cbn [inicializar_laco].
    destruct (Z.leb_spec 1 n); [lia|]. by rewrite seqZ_nil.
  - rewrite inicializar_laco_val by lia. by rewrite Z2Nat.id by lia.
Qed.

(** With [n = INT_MAX] the loop counter overflows before the loop
    condition can fail. *)
Lemma inicializar_laco_max n lixo k : forall i escritos,
  INT_MAX <= n -> -2147483648 <= i <= INT_MAX ->
  inicializar_laco k i n lixo escritos = None.
Proof.
  induction k as [|k IH]; intros i escritos Hn Hi; cbn [inicializar_laco];
    (destruct (Z.leb_spec i n); [|lia]); [done|].
  apply IH; [done|]. unfold wrap, INT_MAX.
  pose proof (Z.mod_pos_bound (i + 1 + 2147483648) 4294967296 ltac:(lia)).
  lia.
Qed.

Lemma inicializar_Some n lixo a :
  inicializar n lixo = Some a ->
  n < INT_MAX /\
  a = Arquivo (Cabecalho 0 (-1) (-1) 1 n)
              ((fun j => no_inicial j n lixo) <$> seqZ 1 n).
Proof.
  intros Ha. destruct (Z.lt_ge_cases n INT_MAX) as [Hmax|Hmax].
  - rewrite inicializar_val in Ha by done. by injection Ha as <-.
  - unfold inicializar in Ha.
    rewrite inicializar_laco_max in Ha; [done|lia|unfold INT_MAX; lia].
Qed.

Lemma no_em_inicial n lixo c :
  1 <= c <= n ->
  no_em ((fun j => no_inicial j n lixo) <$> seqZ 1 n) c =
  Some (no_inicial c n lixo).
Proof.
  intros Hc. unfold no_em. destruct (Z.leb_spec 1 c); [|lia].
  rewrite list_lookup_fmap, lookup_seqZ_lt by lia. cbn. do 2 f_equal. lia.
Qed.

Lemma fl_inicial n lixo k : forall i,
  n < INT_MAX -> 1 <= i -> i + Z.of_nat k = n + 1 ->
  fl ((fun j => no_inicial j n lixo) <$> seqZ 1 n) (seqZ i (Z.of_nat k)).
Proof.
  induction k as [|k IH]; intros i Hn Hi Hk; [done|].
  rewrite (seqZ_cons i (Z.of_nat (S k))) by lia.
  replace (Z.pred (Z.of_nat (S k))) with (Z.of_nat k) by lia.
  cbn [fl]. split; [|apply IH; lia].
  exists lixo. rewrite no_em_inicial by lia. unfold no_inicial. do 2 f_equal.
  destruct k as [|k].
  - cbn. destruct (Z.eqb_spec i n); [done|lia].
  - rewrite (seqZ_cons (Z.succ i) (Z.of_nat (S k))) by lia. cbn [hd].
    destruct (Z.eqb_spec i n); [lia|]. rewrite wrap_id; unfold INT_MAX in *; lia.
Qed.

Lemma inicializar_rep n lixo a :
  1 <= n -> inicializar n lixo = Some a -> Rep a [] (seqZ 1 n).
Proof.
  intros Hn [Hmax ->]%inicializar_Some.
  constructor; cbn [cab nos quant first last free tam length cabeca ultimo].
  - done.
  - done.
  - done.
  - by rewrite (seqZ_cons 1 n) by lia.
  - rewrite length_fmap, length_seqZ. lia.
  - done.
  - apply dll_nil.
  - replace n with (Z.of_nat (Z.to_nat n)) at 2 by lia.
    apply fl_inicial; lia.
  - done.
Qed.

Lemma inicializar_sem_nos n lixo a :
  n <= 0 -> inicializar n lixo = Some a -> sem_nos a.
Proof.
  intros Hn [Hmax ->]%inicializar_Some. unfold sem_nos. cbn.
  by rewrite seqZ_nil by lia.
Qed.

(** ** One operation on a well-formed file *)

(** No operation fails on a well-formed file, and each one leaves it
    well formed. *)
Lemma executa_rep o a L F :
  Rep a L F ->
  exists a' L' F',
    executa o a = Val tt a' /\ Rep a' L' F' /\ passo_abs o L F L' F'.
Proof.
  intros HR. destruct o as [d|d|k]; unfold executa.
  - destruct (separa_chave (chave d) L) as [HK|(L1 & x & L2 & -> & H1 & Hx)].
    + destruct F as [|c F].
      * destruct (inserir_cheio d HR HK eq_refl) as [E _].
        exists a, L, []. rewrite (bind_val _ _ _ _ _ E).
        split_and!; [done|done|by left].
      * destruct (inserir_ok _ _ _ _ d HR HK) as (a' & E & HR').
        exists a', (L ++ [(c, d)]), F. rewrite (bind_val _ _ _ _ _ E).
        split_and!; [done|done|right; by exists c].
    + destruct (inserir_existente d HR) as [E _].
      { intros [_ HF]%Forall_app. by inversion HF. }
      exists a, (L1 ++ x :: L2), F. rewrite (bind_val _ _ _ _ _ E).
      split_and!; [done|done|by left].
  - destruct (separa_chave (chave d) L) as [HK|(L1 & x & L2 & -> & H1 & Hx)].
    + destruct F as [|c F].
      * destruct (inserir_cheio d HR HK eq_refl) as [_ E].
        exists a, L, []. rewrite (bind_val _ _ _ _ _ E).
        split_and!; [done|done|by left].
      * destruct (separa_maior (chave d) L) as (L1 & L2 & -> & H1 & H2).
        destruct (inserirOrdenado_ok _ _ _ _ _ d HR HK H1 H2) as (a' & E & HR').
        exists a', (L1 ++ (c, d) :: L2), F. rewrite (bind_val _ _ _ _ _ E).
        split_and!; [done|done|right; by exists c, L1, L2].
    + destruct (inserir_existente d HR) as [_ E].
      { intros [_ HF]%Forall_app. by inversion HF. }
      exists a, (L1 ++ x :: L2), F. rewrite (bind_val _ _ _ _ _ E).
      split_and!; [done|done|by left].
  - destruct (separa_chave k L) as [HK|(L1 & x & L2 & -> & H1 & Hx)].
    + exists a, L, F. rewrite (bind_val _ _ _ _ _ (remover_ausente _ _ _ _ HR HK)).
      split_and!; [done|done|by left].
    + subst k. destruct (remover_ok _ _ _ _ _ HR H1) as (a' & E & HR').
      exists a', (L1 ++ L2), (x.1 :: F). rewrite (bind_val _ _ _ _ _ E).
      split_and!; [done|done|right; by exists L1, x, L2].
Qed.

(** On a file without cells the insertions read past its end and the
    removal finds nothing. *)
Lemma executa_sem_nos o a a' :
  sem_nos a -> executa o a = Val tt a' -> a' = a.
Proof.
  intros (Hn & Hq & Hf & Hl & Hfr & Ht).
  assert (HP : forall k, pesquisa k a = Val None a).
  { intros k. unfold pesquisa. by rewrite bind_lerCab, bind_combustivel, Hf. }
  destruct o as [d|d|k]; unfold executa.
  - unfold inserir. rewrite bind_assoc, (bind_val _ _ _ _ _ (HP _)).
    rewrite bind_assoc, bind_lerCab, Hfr. change (1 =? -1) with false. cbv iota.
    unfold bind at 1 2. unfold lerNo. by rewrite Hn.
  - unfold inserirOrdenado. rewrite bind_assoc, (bind_val _ _ _ _ _ (HP _)).
    rewrite bind_assoc, bind_lerCab, Hfr. change (1 =? -1) with false. cbv iota.
    unfold bind at 1 2. unfold lerNo. by rewrite Hn.
  - unfold remover. rewrite bind_assoc, bind_lerCab, bind_assoc, bind_combustivel.
    rewrite Hf. cbn. by intros [= <-].
Qed.

(** ** The invariant of the reachable files *)

Lemma alcancavel_inv (P : op -> Prop) (Q : list (Z * dados) -> Prop) :
  Q [] ->
  (forall o L F L' F', P o -> Q L -> passo_abs o L F L' F' -> Q L') ->
  forall a, alcancavel P a ->
            sem_nos a \/ exists L F, Rep a L F /\ Q L.
Proof.
  intros Q0 QS a Ha. induction Ha as [n lixo a Hi|a o a' Ha IH Ho He].
  - destruct (Z.le_gt_cases n 0) as [Hn|Hn].
    + left. by eapply inicializar_sem_nos.
    + right. exists [], (seqZ 1 n). split; [|done].
      eapply inicializar_rep; [lia|done].
  - destruct IH as [Hs|(L & F & HR & HQ)].
    + left. by rewrite (executa_sem_nos _ _ _ Hs He).
    + right. destruct (executa_rep o _ _ _ HR) as (a1 & L' & F' & E & HR' & Hp).
      rewrite E in He. injection He as <-. exists L', F'. split; [done|].
      by eapply QS.
Qed.

(** From a capacity of at least 1, no operation ever reads or writes
    outside the file or scans for ever. *)
Lemma executa_total (a : arquivo) (o : op) :
  alcancavel qualquer a -> 1 <= tam (cab a) ->
  exists a', executa o a = Val tt a'.
Proof.
  intros Ha Ht.
  destruct (alcancavel_inv qualquer (fun _ => True) I ltac:(done) a Ha)
    as [Hs|(L & F & HR & _)].
  - destruct Hs as (_ & _ & _ & _ & _ & ?). lia.
  - destruct (executa_rep o _ _ _ HR) as (a' & _ & _ & E & _). by exists a'.
Qed.

(** ** The chains of a well-formed file *)

Lemma cadeia_em campo fuel ns : forall c l,
  cadeia campo fuel ns c = Some l ->
  Forall (fun x => no_em ns x.1 = Some x.2) l.
Proof.
  induction fuel as [|fuel IH]; intros c l; cbn [cadeia];
    destruct (c =? -1); try by intros [= <-].
  destruct (no_em ns c) as [n|] eqn:E; [|done].
  destruct (cadeia campo fuel ns (campo n)) as [l'|] eqn:E'; [|done].
  intros [= <-]. constructor; [done|]. by eapply IH.
Qed.

Lemma cadeia_next_dll ns : forall L p fuel,
  dll ns p L (-1) -> (length L < fuel)%nat ->
  cadeia next fuel ns (cabeca L (-1)) = Some (celulas p L (-1)).
Proof.
  induction L as [|x L IH]; intros p fuel HD Hf.
  - by destruct fuel.
  - destruct fuel as [|fuel]; [simpl in Hf; lia|].
    apply dll_cons in HD as [Hx HD]. cbn [cadeia cabeca celulas].
    rewrite (cursor_nao_fim _ _ _ Hx), Hx. cbn [next].
    rewrite (IH x.1 fuel); [done|done|simpl in Hf; lia].
Qed.

Lemma cadeia_prev_dll ns : forall L q fuel,
  dll ns (-1) L q -> (length L < fuel)%nat ->
  cadeia prev fuel ns (ultimo L (-1)) = Some (rev (celulas (-1) L q)).
Proof.
  induction L as [|y L IH] using rev_ind; intros q fuel HD Hf.
  - by destruct fuel.
  - rewrite length_app in Hf. cbn [length] in Hf.
    destruct fuel as [|fuel]; [lia|].
    pose proof (dll_ultimo _ _ _ _ _ HD) as Hy.
    apply dll_app in HD as [HD _]. cbn [cabeca] in HD.
    rewrite ultimo_app, celulas_app, rev_app_distr.
    cbn [cadeia ultimo celulas rev app cabeca].
    rewrite (cursor_nao_fim _ _ _ Hy), Hy. cbn [prev].
    rewrite (IH y.1 fuel); [done|done|lia].
Qed.

Lemma cadeia_fl ns : forall F fuel,
  fl ns F -> (length F < fuel)%nat ->
  exists fr, cadeia next fuel ns (hd (-1) F) = Some fr /\ fr.*1 = F /\
             Forall (fun x => chave_de x = -1) fr.
Proof.
  induction F as [|c F IH]; intros fuel HF Hf.
  - exists []. by destruct fuel.
  - destruct fuel as [|fuel]; [simpl in Hf; lia|].
    destruct HF as [[nm Hc] HF].
    destruct (IH fuel HF) as (fr & E & E1 & E2); [simpl in Hf; lia|].
    eexists. cbn [cadeia hd]. rewrite (cursor_nao_fim _ _ _ Hc), Hc.
    cbn [next]. rewrite E. split_and!; [done| |].
    + cbn. by rewrite E1.
    + by constructor.
Qed.

Section Cadeias.
Context {a : arquivo} {L : list (Z * dados)} {F : list Z}.
Hypothesis HR : Rep a L F.

Lemma rep_ativos : ativos a = Some (celulas (-1) L (-1)).
Proof.
  unfold ativos. rewrite (rep_first _ _ _ HR).
  apply cadeia_next_dll; [apply HR|]. pose proof (rep_length HR). lia.
Qed.

Lemma rep_ativos_para_tras :
  ativos_para_tras a = Some (rev (celulas (-1) L (-1))).
Proof.
  unfold ativos_para_tras. rewrite (rep_last _ _ _ HR).
  apply cadeia_prev_dll; [apply HR|]. pose proof (rep_length HR). lia.
Qed.

Lemma rep_livres :
  exists fr, livres a = Some fr /\ fr.*1 = F /\
             Forall (fun x => chave_de x = -1) fr.
Proof.
  unfold livres. rewrite (rep_free _ _ _ HR).
  apply cadeia_fl; [apply HR|]. pose proof (rep_length HR). lia.
Qed.
End Cadeias.

Lemma sem_nos_cadeias a :
  sem_nos a -> ativos a = Some [] /\ ativos_para_tras a = Some [] /\
               livres a = None.
Proof.
  intros (Hn & Hq & Hf & Hl & Hfr & Ht).
  unfold ativos, ativos_para_tras, livres. by rewrite Hn, Hf, Hl, Hfr.
Qed.


Lemma celulas_length p L q : length (celulas p L q) = length L.
Proof. by rewrite <- (length_fmap fst), celulas_fst, length_fmap. Qed.

Lemma last_cons_padrao {A} (l : list A) : forall x p,
  List.last (x :: l) p = List.last l x.
Proof.
  induction l as [|y l IH]; intros x p; [done|].
  change (List.last (x :: y :: l) p) with (List.last (y :: l) p).
  by rewrite !IH.
Qed.

Lemma ultimo_last L p : ultimo L p = List.last L.*1 p.
Proof.
  revert p. induction L as [|x L IH]; intros p; [done|].
  cbn [ultimo fmap list_fmap]. by rewrite IH, last_cons_padrao.
Qed.

Lemma cabeca_hd L q : cabeca L q = hd q L.*1.
Proof. by destruct L. Qed.

Lemma fl_em ns F c :
  fl ns F -> c ∈ F -> exists n, no_em ns c = Some n /\ chave (reg n) = -1.
Proof.
  induction F as [|c' F IH]; [by intros _ ?%elem_of_nil|].
  intros [[nm Hc] HF] [->|Hin]%elem_of_cons; [by eexists|by apply IH].
Qed.

Lemma dll_em ns p L q c :
  dll ns p L q -> c ∈ L.*1 ->
  exists n x, no_em ns c = Some n /\ x ∈ L /\ reg n = x.2.
Proof.
  revert p. induction L as [|x L IH]; intros p; [by intros _ ?%elem_of_nil|].
  intros [Hx HD]%dll_cons [->|Hin]%elem_of_cons.
  - eexists _, x. split_and!; [done|left|done].
  - destruct (IH _ HD Hin) as (n & y & ? & ? & ?).
    exists n, y. split_and!; [done|by right|done].
Qed.

Lemma alcancavel_todas P os : forall a a',
  alcancavel P a -> Forall P os -> executa_todas os a = Some a' ->
  alcancavel P a'.
Proof.
  induction os as [|o os IH]; intros a a' Ha HP; cbn [executa_todas].
  - by intros [= <-].
  - inversion_clear HP as [|? ? Ho HP'].
    destruct (executa o a) as [[] a1|] eqn:E; [|done].
    apply IH; [|done]. by eapply alc_passo.
Qed.

Lemma ultimo_elem L p : L <> [] -> ultimo L p ∈ L.*1.
Proof.
  intros HL. destruct (separa_ultimo L) as [->|(L0 & y & ->)]; [done|].
  rewrite ultimo_app, fmap_app, elem_of_app. right; left.
Qed.

Lemma celulas_elem p L q x :
  x ∈ celulas p L q ->
  exists L0 y L', L = L0 ++ y :: L' /\
                  x = (y.1, No (cabeca L' q) (ultimo L0 p) y.2).
Proof.
  revert p. induction L as [|y L IH]; intros p; [by intros ?%elem_of_nil|].
  cbn [celulas]. intros [->|Hin]%elem_of_cons.
  - by exists [], y, L.
  - destruct (IH _ Hin) as (L0 & z & L' & -> & ->).
    by exists (y :: L0), z, L'.
Qed.

(** Only the last cell of the active chain has [next = -1] and only the
    first one has [prev = -1]. *)
Lemma celulas_extremos ns L :
  dll ns (-1) L (-1) -> NoDup L.*1 ->
  Forall (fun x => (next x.2 = -1 <-> x.1 = ultimo L (-1)) /\
                   (prev x.2 = -1 <-> x.1 = cabeca L (-1)))
         (celulas (-1) L (-1)).
Proof.
  intros HD ND. apply list.Forall_forall. intros x Hx.
  destruct (celulas_elem _ _ _ _ Hx) as (L0 & y & L' & -> & ->).
  cbn [fst snd next prev]. rewrite ultimo_app, cabeca_app. cbn [ultimo].
  rewrite fmap_app, fmap_cons in ND.
  apply list.NoDup_app in ND as (N0 & N0y & [NyL' NL']%list.NoDup_cons).
  pose proof HD as [HD0 HD']%dll_app. apply dll_cons in HD' as [Hy HD'].
  split.
  - destruct L' as [|z L']; [done|]. cbn [cabeca]. split.
    + intros E. apply dll_primeiro, no_em_Some in HD'. lia.
    + intros E. destruct NyL'. rewrite E. by apply ultimo_elem.
  - destruct L0 as [|z L0]; [done|]. cbn [cabeca]. split.
    + intros E. pose proof (ultimo_elem (z :: L0) (-1) ltac:(done)) as Hu.
      eapply dll_range in Hu; [|exact HD0]. lia.
    + intros E. destruct (N0y z.1); [left|rewrite <- E; left].
Qed.

(** * The properties of the file *)

(** C1. In every file reached from [inicializar] by any sequence of
    [inserir], [inserirOrdenado] and [remover], the traversal of the active
    chain from [first] along [next] ends at [-1] after visiting exactly
    [quant] cells, the last of them at cursor [last]; the cell with
    [next = -1] is the one at [last].  The traversal from [last] along
    [prev] visits the same cells in the opposite order, so it reaches
    [first], and the cell with [prev = -1] is the one at [first]. *)
Theorem cadeia_ativa_invariante (a : arquivo) :
  alcancavel qualquer a ->
  exists l,
    ativos a = Some l /\
    Z.of_nat (length l) = quant (cab a) /\
    hd (-1) l.*1 = first (cab a) /\
    List.last l.*1 (-1) = last (cab a) /\
    Forall (fun x => next x.2 = -1 <-> x.1 = last (cab a)) l /\
    ativos_para_tras a = Some (rev l) /\
    Forall (fun x => prev x.2 = -1 <-> x.1 = first (cab a)) l.
Proof.
  intros Ha.
  destruct (alcancavel_inv qualquer (fun _ => True) I ltac:(done) a Ha)
    as [Hs|(L & F & HR & _)].
  - destruct (sem_nos_cadeias _ Hs) as (E1 & E2 & _).
    destruct Hs as (_ & Hq & Hf & Hl & _).
    exists []. by rewrite E1, E2, Hq, Hf, Hl.
  - exists (celulas (-1) L (-1)).
    pose proof (rep_NoDup HR) as [ND _]%list.NoDup_app.
    pose proof (celulas_extremos _ _ (rep_dll _ _ _ HR) ND) as HE.
    rewrite (rep_ativos HR), (rep_ativos_para_tras HR), celulas_length,
      celulas_fst, (rep_quant _ _ _ HR), (rep_first _ _ _ HR),
      (rep_last _ _ _ HR), <- ultimo_last, <- cabeca_hd.
    split_and!; try done.
    + eapply Forall_impl; [exact HE|]. by intros x [? _].
    + eapply Forall_impl; [exact HE|]. by intros x [_ ?].
Qed.

(** The partition of the cursors, for a capacity of at least 1: the two
    chains share no cursor and together hold exactly [1..tam]. *)
Lemma particao_dos_cursores (a : arquivo) :
  alcancavel qualquer a -> 1 <= tam (cab a) ->
  exists act fr,
    ativos a = Some act /\ livres a = Some fr /\
    NoDup (act.*1 ++ fr.*1) /\
    forall c, c ∈ act.*1 ++ fr.*1 <-> 1 <= c <= tam (cab a).
Proof.
  intros Ha Ht.
  destruct (alcancavel_inv qualquer (fun _ => True) I ltac:(done) a Ha)
    as [Hs|(L & F & HR & _)].
  - destruct Hs as (_ & _ & _ & _ & _ & ?). lia.
  - destruct (rep_livres HR) as (fr & E & E1 & _).
    exists (celulas (-1) L (-1)), fr.
    rewrite (rep_ativos HR), E, celulas_fst, E1.
    split_and!; [done|done|apply (rep_NoDup HR)|apply (rep_cursor HR)].
Qed.

(** C2, at the capacity 0.  [inicializar(arq, 0)] writes no cell and still
    stores 1 as the head of the free chain: the traversal of the free chain
    starts at a cursor outside [1..tam] and reads past the end of the
    file. *)
Theorem particao_capacidade_zero :
  exists a,
    inicializar 0 [] = Some a /\ alcancavel qualquer a /\
    tam (cab a) = 0 /\ free (cab a) = 1 /\ nos a = [] /\ livres a = None /\
    ~ (exists act fr,
         ativos a = Some act /\ livres a = Some fr /\
         NoDup (act.*1 ++ fr.*1) /\
         forall c, c ∈ act.*1 ++ fr.*1 <-> 1 <= c <= tam (cab a)).
Proof.
  eexists. split; [reflexivity|].
  split; [by apply (alc_inicial _ 0 [])|].
  split_and!; [done..|]. by intros (act & fr & _ & H & _).
Qed.

(** C3. When every insertion is an [inserirOrdenado] (removals allowed),
    the keys met along the active chain from [first] to [last] are strictly
    increasing. *)
Theorem chaves_crescentes (a : arquivo) :
  alcancavel so_ordenado a ->
  exists l, ativos a = Some l /\ StronglySorted Z.lt (map chave_de l).
Proof.
  intros Ha.
  pose (R := fun x y : Z * dados => chave x.2 < chave y.2).
  destruct (alcancavel_inv so_ordenado (StronglySorted R)) with (a := a)
    as [Hs|(L & F & HR & HS)]; [constructor| |done| |].
  - intros o L F L' F' Ho HS [[-> _]|Hp]; [done|].
    destruct o as [d|d|k]; [done| |].
    + destruct Hp as (c & L1 & L2 & _ & -> & -> & HK & H1 & H2).
      apply StronglySorted_app in HS as (H12 & HS1 & HS2).
      apply Forall_app in HK as [HK1 HK2].
      rewrite list.Forall_forall in H1, HK1.
      assert (HL2 : Forall (R (c, d)) L2).
      { destruct L2 as [|z L2]; [done|].
        apply StronglySorted_inv in HS2 as [_ Hz]. constructor.
        - unfold R. simpl. lia.
        - eapply Forall_impl; [exact Hz|]. unfold R. simpl. lia. }
      apply StronglySorted_app. split_and!; [|done|by constructor].
      intros x1 x2 Hx1 [->|Hx2]%elem_of_cons; [|by apply H12].
      unfold R. simpl. specialize (H1 _ Hx1). specialize (HK1 _ Hx1). lia.
    + destruct Hp as (L1 & x & L2 & -> & -> & _).
      apply StronglySorted_app in HS as (H12 & HS1 & HS2).
      apply StronglySorted_inv in HS2 as [HS2 _].
      apply StronglySorted_app. split_and!; [|done|done].
      intros x1 x2 Hx1 Hx2. apply H12; [done|by right].
  - destruct (sem_nos_cadeias _ Hs) as (E1 & _). exists []. split; [done|].
    constructor.
  - exists (celulas (-1) L (-1)). split; [apply (rep_ativos HR)|].
    rewrite celulas_chaves.
    by apply (StronglySorted_fmap (chave ∘ snd) R Z.lt).
Qed.

(** The header of a file whose capacity is not 0: the free chain is empty
    exactly when the file is full. *)
Lemma cheio_sem_livres (a : arquivo) :
  alcancavel qualquer a -> tam (cab a) <> 0 ->
  (free (cab a) = -1 <-> quant (cab a) = tam (cab a)).
Proof.
  intros Ha Ht.
  destruct (alcancavel_inv qualquer (fun _ => True) I ltac:(done) a Ha)
    as [Hs|(L & F & HR & _)].
  - destruct Hs as (_ & Hq & _ & _ & Hf & ?). lia.
  - pose proof (rep_length HR) as Hlen. pose proof (rep_tam _ _ _ HR) as Htam.
    rewrite (rep_free _ _ _ HR), (rep_quant _ _ _ HR).
    destruct F as [|c F]; cbn [hd length] in *; [lia|].
    assert (1 <= c) by (apply (rep_cursor HR); rewrite elem_of_app; right; left).
    lia.
Qed.

(** C4, at the capacity 0.  [inicializar(arq, 0)] leaves a file with
    [quant = tam = 0], which is full, and [free = 1] instead of [-1]. *)
Theorem cabecalho_capacidade_zero :
  exists a,
    inicializar 0 [] = Some a /\ alcancavel qualquer a /\
    quant (cab a) = tam (cab a) /\ free (cab a) = 1 /\
    ~ (free (cab a) = -1 <-> quant (cab a) = tam (cab a)).
Proof.
  eexists. split; [reflexivity|]. split; [by apply (alc_inicial _ 0 [])|].
  cbn. split_and!; [done|done|]. intros [_ H]. by specialize (H eq_refl).
Qed.

(** C8. In every reachable file, [quant] is 0 exactly when both [first] and
    [last] are [-1]. *)
Theorem vazia_sse_sem_extremos (a : arquivo) :
  alcancavel qualquer a ->
  (quant (cab a) = 0 <-> first (cab a) = -1 /\ last (cab a) = -1).
Proof.
  intros Ha.
  destruct (alcancavel_inv qualquer (fun _ => True) I ltac:(done) a Ha)
    as [Hs|(L & F & HR & _)].
  - by destruct Hs as (_ & -> & -> & -> & _).
  - rewrite (rep_quant _ _ _ HR), (rep_first _ _ _ HR), (rep_last _ _ _ HR).
    destruct L as [|x L]; [done|].
    pose proof (dll_primeiro _ _ _ _ _ (rep_dll _ _ _ HR)) as Hx%no_em_Some.
    cbn [cabeca length]. split; [lia|]. intros [? _]. lia.
Qed.

(** ** Refused operations *)

Lemma bind_inv {A B} (m : io A) (k : A -> io B) a y a' :
  bind m k a = Val y a' -> exists x a1, m a = Val x a1 /\ k x a1 = Val y a'.
Proof. unfold bind. destruct (m a) as [x a1|]; [eauto|done]. Qed.

Lemma lerNo_inv pos a l a' : lerNo pos a = Val l a' -> a' = a.
Proof. unfold lerNo. destruct (no_em (nos a) pos); by intros [= _ <-]. Qed.

Lemma pesquisa_laco_le fuel k : forall atual a r a',
  pesquisa_laco fuel k atual a = Val r a' -> a' = a.
Proof.
  induction fuel as [|fuel IH]; intros atual a r a'; cbn [pesquisa_laco];
    destruct (atual =? -1); try by intros [= _ <-].
  intros (l & a1 & ->%lerNo_inv & H)%bind_inv.
  destruct (chave (reg l) =? k); [by injection H as _ <-|by eapply IH].
Qed.

Lemma pesquisa_le k a r a' : pesquisa k a = Val r a' -> a' = a.
Proof.
  unfold pesquisa. rewrite bind_lerCab, bind_combustivel.
  apply pesquisa_laco_le.
Qed.

(** Once an insertion has passed its two checks it either fails or ends
    with [Inserido]. *)
Lemma inserir_recusa d a w a' :
  inserir d a = Val w a' -> w <> Inserido -> a' = a.
Proof.
  unfold inserir. intros (e & a1 & ->%pesquisa_le & H)%bind_inv Hw.
  destruct e; [by injection H as _ <-|].
  rewrite bind_lerCab in H. destruct (free (cab a) =? -1);
    [by injection H as _ <-|].
  apply bind_inv in H as (? & ? & _ & H). apply bind_inv in H as (? & ? & _ & H).
  apply bind_inv in H as (? & ? & _ & H). apply bind_inv in H as (? & ? & _ & H).
  by injection H as <-.
Qed.

Lemma inserirOrdenado_recusa d a w a' :
  inserirOrdenado d a = Val w a' -> w <> Inserido -> a' = a.
Proof.
  unfold inserirOrdenado. intros (e & a1 & ->%pesquisa_le & H)%bind_inv Hw.
  destruct e; [by injection H as _ <-|].
  rewrite bind_lerCab in H. destruct (free (cab a) =? -1);
    [by injection H as _ <-|].
  apply bind_inv in H as (? & ? & _ & H). apply bind_inv in H as (? & ? & _ & H).
  apply bind_inv in H as (? & ? & _ & H). apply bind_inv in H as (? & ? & _ & H).
  by injection H as <-.
Qed.

Lemma remover_laco_recusa fuel k c : forall atual a a',
  remover_laco fuel k c atual a = Val false a' -> a' = a.
Proof.
  induction fuel as [|fuel IH]; intros atual a a'; cbn [remover_laco];
    destruct (atual =? -1); try by intros [= <-].
  intros (l & a1 & ->%lerNo_inv & H)%bind_inv.
  destruct (chave (reg l) =? k); [|by eapply IH].
  apply bind_inv in H as (? & ? & _ & H). apply bind_inv in H as (? & ? & _ & H).
  apply bind_inv in H as (? & ? & _ & H). apply bind_inv in H as (? & ? & _ & H).
  by injection H.
Qed.

Lemma remover_recusa k a a' : remover k a = Val false a' -> a' = a.
Proof.
  unfold remover. rewrite bind_lerCab, bind_combustivel.
  apply remover_laco_recusa.
Qed.

(** C5. When [inserir] or [inserirOrdenado] stops with "chave ja existente"
    or "arquivo cheio", or [remover] returns [false], the file (header and
    every cell) is the one before the call; so a second refused call on the
    result, as in removing an absent key twice, still leaves the original
    file. *)
Theorem recusa_nao_altera (o : op) (a a1 : arquivo) :
  recusada o a a1 ->
  a1 = a /\ forall a2, recusada o a1 a2 -> a2 = a.
Proof.
  assert (H1 : forall b b', recusada o b b' -> b' = b).
  { intros b b'. destruct o as [d|d|k]; cbn [recusada].
    - intros [H|H]; by eapply inserir_recusa.
    - intros [H|H]; by eapply inserirOrdenado_recusa.
    - apply remover_recusa. }
  intros ->%H1. split; [done|]. apply H1.
Qed.

(** C6. In a reachable file where the key of [d] is not active
    ([pesquisa] fails) and the free chain is not empty, [inserir d]
    succeeds, and a [pesquisa] of that key then succeeds and returns the
    record [d], name field included. *)
Theorem pesquisa_apos_inserir (a : arquivo) (d : dados)
    (x : Z * no) (fr : list (Z * no)) :
  alcancavel qualquer a ->
  pesquisa (chave d) a = Val None a ->
  livres a = Some (x :: fr) ->
  exists a' l,
    inserir d a = Val Inserido a' /\
    pesquisa (chave d) a' = Val (Some l) a' /\
    reg l = d /\ nome (reg l) = nome d.
Proof.
  intros Ha HP HL.
  destruct (alcancavel_inv qualquer (fun _ => True) I ltac:(done) a Ha)
    as [Hs|(L & F & HR & _)].
  - destruct (sem_nos_cadeias _ Hs) as (_ & _ & E). by rewrite E in HL.
  - destruct (rep_livres HR) as (fr' & E & E1 & _).
    rewrite HL in E. injection E as <-. cbn in E1.
    destruct F as [|c F]; [done|]. clear E1.
    assert (HK : Forall (fun y => chave y.2 <> chave d) L).
    { destruct (separa_chave (chave d) L)
        as [?|(L1 & y & L2 & -> & H1 & Hy)]; [done|].
      rewrite <- Hy in H1, HP.
      by rewrite (pesquisa_presente _ _ _ _ _ HR H1) in HP. }
    destruct (inserir_ok _ _ _ _ d HR HK) as (a' & E & HR').
    exists a'. eexists. split; [done|].
    split; [apply (pesquisa_presente a' L (c, d) [] F HR' HK)|done].
Qed.

(** Keys other than [-1] at every insertion. *)
Lemma sentinela_sse_livre (a : arquivo) :
  alcancavel chave_valida a -> 1 <= tam (cab a) ->
  exists fr,
    livres a = Some fr /\
    forall c n, no_em (nos a) c = Some n ->
                (chave (reg n) = -1 <-> c ∈ fr.*1).
Proof.
  intros Ha Ht.
  destruct (alcancavel_inv chave_valida
              (Forall (fun x => chave x.2 <> -1))) with (a := a)
    as [Hs|(L & F & HR & HQ)]; [constructor| |done| |].
  - intros o L F L' F' Ho HQ [[-> _]|Hp]; [done|].
    destruct o as [d|d|k]; cbn in Ho.
    + destruct Hp as (c & _ & -> & _). apply Forall_app. split; [done|].
      by constructor.
    + destruct Hp as (c & L1 & L2 & _ & -> & -> & _).
      apply Forall_app in HQ as [H1 H2]. apply Forall_app. split; [done|].
      by constructor.
    + destruct Hp as (L1 & x & L2 & -> & -> & _).
      apply Forall_app in HQ as [H1 H2%Forall_inv_tail]. by apply Forall_app.
  - destruct Hs as (_ & _ & _ & _ & _ & ?). lia.
  - destruct (rep_livres HR) as (fr & E & E1 & _). exists fr.
    split; [done|]. rewrite E1. intros c n Hc.
    pose proof (no_em_Some _ _ _ Hc) as Hr. rewrite (rep_tam _ _ _ HR) in Hr.
    apply (rep_cursor HR) in Hr. pose proof (rep_NoDup HR) as ND.
    apply list.NoDup_app in ND as (_ & NLF & _).
    apply elem_of_app in Hr as [Hin|Hin].
    + destruct (dll_em _ _ _ _ _ (rep_dll _ _ _ HR) Hin)
        as (n' & y & Hn' & Hy & Hreg).
      rewrite Hc in Hn'. injection Hn' as <-. rewrite Hreg.
      rewrite list.Forall_forall in HQ. specialize (HQ _ Hy).
      specialize (NLF _ Hin). tauto.
    + destruct (fl_em _ _ _ (rep_fl _ _ _ HR) Hin) as (n' & Hn' & Hk).
      rewrite Hc in Hn'. injection Hn' as <-. tauto.
Qed.

(** C7, at the key [-1].  After [inicializar(arq, 3)], [inserir] accepts a
    record whose key is [-1]: cell 1 then is on the active chain, not on
    the free chain, and holds the key [-1]. *)
Theorem chave_sentinela_ativa :
  let a0 := Arquivo (Cabecalho 0 (-1) (-1) 1 3)
                    [No 2 (-1) (Dados (-1) []); No 3 (-1) (Dados (-1) []);
                     No (-1) (-1) (Dados (-1) [])] in
  let a1 := Arquivo (Cabecalho 1 1 1 2 3)
                    [No (-1) (-1) (Dados (-1) [x41]);
                     No 3 (-1) (Dados (-1) []);
                     No (-1) (-1) (Dados (-1) [])] in
  inicializar 3 [] = Some a0 /\
  inserir (Dados (-1) [x41]) a0 = Val Inserido a1 /\
  alcancavel qualquer a1 /\
  ativos a1 = Some [(1, No (-1) (-1) (Dados (-1) [x41]))] /\
  livres a1 = Some [(2, No 3 (-1) (Dados (-1) []));
                    (3, No (-1) (-1) (Dados (-1) []))] /\
  ~ (forall fr c n,
       livres a1 = Some fr -> no_em (nos a1) c = Some n ->
       (chave (reg n) = -1 <-> c ∈ fr.*1)).
Proof.
  intros a0 a1. split_and!; [reflexivity|reflexivity| |reflexivity..|].
  - apply (alc_passo _ a0 (Inserir (Dados (-1) [x41])));
      [by apply (alc_inicial _ 3 [])|done|reflexivity].
  - intros H. specialize (H _ 1 _ eq_refl eq_refl) as [H _].
    specialize (H eq_refl). cbn in H.
    apply elem_of_cons in H as [?|H]; [done|].
    apply elem_of_cons in H as [?|?%elem_of_nil]; done.
Qed.

(** C9. [inicializar(arq, 3)] on a new file writes the header
    [quant = 0, first = -1, last = -1, free = 1, tam = 3] and three free
    cells with key [-1], chained [1 -> 2 -> 3 -> -1] by [next]. *)
Theorem inicializar_3 (lixo : list byte) :
  inicializar 3 lixo =
    Some (Arquivo (Cabecalho 0 (-1) (-1) 1 3)
                  [No 2 (-1) (Dados (-1) lixo);
                   No 3 (-1) (Dados (-1) lixo);
                   No (-1) (-1) (Dados (-1) lixo)]) /\
  (forall a, inicializar 3 lixo = Some a ->
             livres a = Some [(1, No 2 (-1) (Dados (-1) lixo));
                              (2, No 3 (-1) (Dados (-1) lixo));
                              (3, No (-1) (-1) (Dados (-1) lixo))] /\
             ativos a = Some []).
Proof. split; [reflexivity|]. by intros a [= <-]. Qed.

Lemma bind_erro {A B} (m : io A) (k : A -> io B) a e :
  m a = Erro e -> bind m k a = Erro e.
Proof. unfold bind. by intros ->. Qed.

(** With an empty active list the two insertions run the same steps. *)
Lemma inserir_lista_vazia (a : arquivo) (d : dados) :
  first (cab a) = -1 -> last (cab a) = -1 ->
  inserir d a = inserirOrdenado d a.
Proof.
  intros Hf Hl.
  assert (HP : pesquisa (chave d) a = Val None a).
  { unfold pesquisa. by rewrite bind_lerCab, bind_combustivel, Hf. }
  unfold inserir, inserirOrdenado.
  rewrite !(bind_val _ _ _ _ _ HP), !bind_lerCab, Hf, Hl.
  destruct (free (cab a) =? -1); [done|].
  destruct (lerNo (free (cab a)) a) as [l a1|e] eqn:E.
  - rewrite !(bind_val _ _ _ _ _ E). change (-1 =? -1) with true.
    cbn [negb]. by rewrite !bind_ret.
  - by rewrite !(bind_erro _ _ _ _ E).
Qed.

(** C10. On a file whose active list is empty ([first = last = -1]) and
    whose free chain is not empty, [inserir d] and [inserirOrdenado d] both
    succeed and leave the same file: same header, same cells. *)
Theorem inserir_igual_inserirOrdenado (a : arquivo) (d : dados)
    (x : Z * no) (fr : list (Z * no)) :
  first (cab a) = -1 -> last (cab a) = -1 ->
  livres a = Some (x :: fr) ->
  exists a', inserir d a = Val Inserido a' /\
             inserirOrdenado d a = Val Inserido a'.
Proof.
  intros Hf Hl HL. rewrite <- (inserir_lista_vazia a d Hf Hl).
  assert (HP : pesquisa (chave d) a = Val None a).
  { unfold pesquisa. by rewrite bind_lerCab, bind_combustivel, Hf. }
  unfold livres in HL. cbn [cadeia] in HL.
  destruct (free (cab a) =? -1) eqn:E; [done|].
  destruct (no_em (nos a) (free (cab a))) as [l|] eqn:E1; [|done].
  unfold inserir.
  rewrite (bind_val _ _ _ _ _ HP), bind_lerCab, E.
  rewrite (bind_val _ _ _ _ _ (lerNo_val _ _ _ E1)), Hl.
  change (-1 =? -1) with true. cbn [negb]. rewrite bind_ret.
  rewrite (bind_val _ _ _ _ _ (escreverNo_val _ _ _ _ E1)), bind_escreverCab.
  by eexists.
Qed.

(** * The properties on the example files *)

Lemma arquivo_novo_inicial : inicializar 3 [] = Some arquivo_novo.
Proof. reflexivity. Qed.

Lemma arquivo_exemplo_sessao :
  executa_todas tres_insercoes arquivo_novo = Some arquivo_exemplo.
Proof. reflexivity. Qed.

Lemma arquivo_exemplo_alcancavel P :
  Forall P tres_insercoes -> alcancavel P arquivo_exemplo.
Proof.
  intros HP. apply (alcancavel_todas P tres_insercoes arquivo_novo);
    [|done|apply arquivo_exemplo_sessao].
  apply (alc_inicial _ 3 []), arquivo_novo_inicial.
Qed.

Lemma cadeia_ativa_invariante_witness :
  alcancavel qualquer arquivo_exemplo /\
  exists l,
    ativos arquivo_exemplo = Some l /\
    Z.of_nat (length l) = quant (cab arquivo_exemplo) /\
    hd (-1) l.*1 = first (cab arquivo_exemplo) /\
    List.last l.*1 (-1) = last (cab arquivo_exemplo) /\
    Forall (fun x => next x.2 = -1 <-> x.1 = last (cab arquivo_exemplo)) l /\
    ativos_para_tras arquivo_exemplo = Some (rev l) /\
    Forall (fun x => prev x.2 = -1 <-> x.1 = first (cab arquivo_exemplo)) l.
Proof.
  assert (H : alcancavel qualquer arquivo_exemplo).
  { apply arquivo_exemplo_alcancavel. repeat constructor. }
  split; [exact H|]. apply (cadeia_ativa_invariante arquivo_exemplo H).
Defined.

Lemma chaves_crescentes_witness :
  alcancavel so_ordenado arquivo_exemplo /\
  exists l, ativos arquivo_exemplo = Some l /\
            StronglySorted Z.lt (map chave_de l).
Proof.
  assert (H : alcancavel so_ordenado arquivo_exemplo).
  { apply arquivo_exemplo_alcancavel. repeat constructor. }
  split; [exact H|]. apply (chaves_crescentes arquivo_exemplo H).
Defined.

Lemma recusa_nao_altera_witness :
  recusada (Remover 7) arquivo_exemplo arquivo_exemplo /\
  (arquivo_exemplo = arquivo_exemplo /\
   forall a2, recusada (Remover 7) arquivo_exemplo a2 -> a2 = arquivo_exemplo).
Proof.
  assert (H : recusada (Remover 7) arquivo_exemplo arquivo_exemplo)
    by reflexivity.
  split; [exact H|].
  apply (recusa_nao_altera (Remover 7) arquivo_exemplo arquivo_exemplo H).
Defined.

Lemma pesquisa_apos_inserir_witness :
  alcancavel qualquer arquivo_novo /\
  pesquisa 5 arquivo_novo = Val None arquivo_novo /\
  livres arquivo_novo =
    Some [(1, No 2 (-1) (Dados (-1) [])); (2, No 3 (-1) (Dados (-1) []));
          (3, No (-1) (-1) (Dados (-1) []))] /\
  exists a' l,
    inserir (Dados 5 [x41]) arquivo_novo = Val Inserido a' /\
    pesquisa 5 a' = Val (Some l) a' /\
    reg l = Dados 5 [x41] /\ nome (reg l) = [x41].
Proof.
  assert (H : alcancavel qualquer arquivo_novo).
  { apply (alc_inicial _ 3 []), arquivo_novo_inicial. }
  split; [exact H|]. split; [reflexivity|]. split; [reflexivity|].
  eapply (pesquisa_apos_inserir arquivo_novo (Dados 5 [x41]) _ _ H);
    reflexivity.
Defined.

Lemma vazia_sse_sem_extremos_witness :
  alcancavel qualquer arquivo_exemplo /\
  (quant (cab arquivo_exemplo) = 0 <->
   first (cab arquivo_exemplo) = -1 /\ last (cab arquivo_exemplo) = -1).
Proof.
  assert (H : alcancavel qualquer arquivo_exemplo).
  { apply arquivo_exemplo_alcancavel. repeat constructor. }
  split; [exact H|]. apply (vazia_sse_sem_extremos arquivo_exemplo H).
Defined.

Lemma inserir_igual_inserirOrdenado_witness :
  first (cab arquivo_novo) = -1 /\ last (cab arquivo_novo) = -1 /\
  livres arquivo_novo =
    Some [(1, No 2 (-1) (Dados (-1) [])); (2, No 3 (-1) (Dados (-1) []));
          (3, No (-1) (-1) (Dados (-1) []))] /\
  exists a', inserir (Dados 5 [x41]) arquivo_novo = Val Inserido a' /\
             inserirOrdenado (Dados 5 [x41]) arquivo_novo = Val Inserido a'.
Proof.
  split; [reflexivity|]. split; [reflexivity|]. split; [reflexivity|].
  eapply (inserir_igual_inserirOrdenado arquivo_novo (Dados 5 [x41]) _ _);
    reflexivity.
Defined.

(** * Further properties of the operations *)

(** ** Outcomes on a well-formed file *)

Lemma chave_fora k (L : list (Z * dados)) :
  Forall (fun x => chave x.2 <> k) L <-> k ∉ map (fun x => chave x.2) L.
Proof.
  rewrite list.Forall_forall. split.
  - intros H [x [-> Hx]]%(list_elem_of_fmap (fun x : Z * dados => chave x.2)).
    by apply (H x).
  - intros H x Hx E. apply H. rewrite <- E.
    by apply (list_elem_of_fmap_2 (fun x : Z * dados => chave x.2)).
Qed.

Lemma celulas_regs p L q : map (fun x => reg x.2) (celulas p L q) = L.*2.
Proof.
  revert p. induction L as [|x L IH]; intros p; [done|].
  cbn [celulas map]. by rewrite IH.
Qed.

Lemma celulas_chaves_L p L q :
  map chave_de (celulas p L q) = map (fun x => chave x.2) L.
Proof.
  revert p. induction L as [|x L IH]; intros p; [done|].
  cbn [celulas map]. by rewrite IH.
Qed.

Lemma rep_registros a L F : Rep a L F -> registros a = Some L.*2.
Proof.
  intros HR. unfold registros. rewrite (rep_ativos HR). cbn.
  by rewrite celulas_regs.
Qed.

Lemma inserir_casos a L F d w a' :
  Rep a L F -> inserir d a = Val w a' ->
  (w = ChaveJaExistente /\ a' = a /\
   ~ Forall (fun x => chave x.2 <> chave d) L) \/
  (w = ArquivoCheio /\ a' = a /\
   Forall (fun x => chave x.2 <> chave d) L /\ F = []) \/
  (w = Inserido /\ Forall (fun x => chave x.2 <> chave d) L /\
   exists c F', F = c :: F' /\ Rep a' (L ++ [(c, d)]) F').
Proof.
  intros HR H.
  destruct (separa_chave (chave d) L) as [HK|(L1 & x & L2 & -> & H1 & Hx)].
  - destruct F as [|c F].
    + destruct (inserir_cheio d HR HK eq_refl) as [E _].
      rewrite E in H. injection H as <- <-. right; left. done.
    + destruct (inserir_ok _ _ _ _ d HR HK) as (a1 & E & HR').
      rewrite E in H. injection H as <- <-. right; right.
      split_and!; [done..|]. by exists c, F.
  - assert (HN : ~ Forall (fun y => chave y.2 <> chave d) (L1 ++ x :: L2)).
    { intros [_ HF]%Forall_app. by inversion HF. }
    destruct (inserir_existente d HR HN) as [E _].
    rewrite E in H. injection H as <- <-. by left.
Qed.

Lemma inserirOrdenado_casos a L F d w a' :
  Rep a L F -> inserirOrdenado d a = Val w a' ->
  (w = ChaveJaExistente /\ a' = a /\
   ~ Forall (fun x => chave x.2 <> chave d) L) \/
  (w = ArquivoCheio /\ a' = a /\
   Forall (fun x => chave x.2 <> chave d) L /\ F = []) \/
  (w = Inserido /\ Forall (fun x => chave x.2 <> chave d) L /\
   exists c F' L1 L2,
     F = c :: F' /\ L = L1 ++ L2 /\
     Forall (fun x => chave x.2 <= chave d) L1 /\
     match L2 with [] => True | x :: _ => chave x.2 > chave d end /\
     Rep a' (L1 ++ (c, d) :: L2) F').
Proof.
  intros HR H.
  destruct (separa_chave (chave d) L) as [HK|(L1 & x & L2 & -> & H1 & Hx)].
  - destruct F as [|c F].
    + destruct (inserir_cheio d HR HK eq_refl) as [_ E].
      rewrite E in H. injection H as <- <-. right; left. done.
    + destruct (separa_maior (chave d) L) as (L1 & L2 & -> & H1 & H2).
      destruct (inserirOrdenado_ok _ _ _ _ _ d HR HK H1 H2) as (a1 & E & HR').
      rewrite E in H. injection H as <- <-. right; right.
      split_and!; [done..|]. by exists c, F, L1, L2.
  - assert (HN : ~ Forall (fun y => chave y.2 <> chave d) (L1 ++ x :: L2)).
    { intros [_ HF]%Forall_app. by inversion HF. }
    destruct (inserir_existente d HR HN) as [_ E].
    rewrite E in H. injection H as <- <-. by left.
Qed.

Lemma remover_casos a L F k b a' :
  Rep a L F -> remover k a = Val b a' ->
  (b = false /\ a' = a /\ Forall (fun x => chave x.2 <> k) L) \/
  (b = true /\
   exists L1 x L2,
     L = L1 ++ x :: L2 /\ chave x.2 = k /\
     Forall (fun y => chave y.2 <> k) L1 /\
     Rep a' (L1 ++ L2) (x.1 :: F)).
Proof.
  intros HR H.
  destruct (separa_chave k L) as [HK|(L1 & x & L2 & -> & H1 & Hx)].
  - rewrite (remover_ausente _ _ _ _ HR HK) in H. injection H as <- <-.
    by left.
  - subst k. destruct (remover_ok _ _ _ _ _ HR H1) as (a1 & E & HR').
    rewrite E in H. injection H as <- <-. right. split; [done|].
    by exists L1, x, L2.
Qed.

(** Reachable files hold each key at most once. *)
Lemma alcancavel_rep a :
  alcancavel qualquer a ->
  sem_nos a \/
  exists L F, Rep a L F /\ NoDup (map (fun x => chave x.2) L).
Proof.
  apply (alcancavel_inv qualquer
           (fun L => NoDup (map (fun x => chave x.2) L))); [constructor|].
  intros o L F L' F' _ HN [[-> _]|Hp]; [done|].
  destruct o as [d|d|k].
  - destruct Hp as (c & _ & -> & HK). rewrite map_app. cbn [map].
    apply list.NoDup_app. split_and!; [done| |apply NoDup_singleton].
    intros k Hk ->%list_elem_of_singleton. by apply chave_fora in HK.
  - destruct Hp as (c & L1 & L2 & _ & -> & -> & HK & _).
    apply chave_fora in HK. rewrite map_app in *. cbn [map].
    rewrite <- Permutation_middle. by apply list.NoDup_cons.
  - destruct Hp as (L1 & x & L2 & -> & -> & _).
    rewrite map_app in *. cbn [map] in HN.
    rewrite <- Permutation_middle in HN. by apply list.NoDup_cons in HN as [_ ?].
Qed.

(** ** inicializar, pesquisa and the outcome of an insertion *)

(** X1. For a capacity [n] from 1 up to [INT_MAX - 1], [inicializar] writes
    [n] cells; the active chain is empty and the free chain goes through
    the cursors 1, 2, ..., [n] in this order, each cell with key [-1]. *)
Theorem inicializar_cadeia_livre (n : Z) (lixo : list byte) :
  1 <= n -> n < INT_MAX ->
  exists a fr,
    inicializar n lixo = Some a /\
    cab a = Cabecalho 0 (-1) (-1) 1 n /\
    Z.of_nat (length (nos a)) = n /\
    ativos a = Some [] /\
    livres a = Some fr /\ fr.*1 = seqZ 1 n /\
    Forall (fun x => chave_de x = -1) fr.
Proof.
  intros Hn Hmax. pose proof (inicializar_val n lixo Hmax) as E.
  pose proof (inicializar_rep _ _ _ Hn E) as HR.
  destruct (rep_livres HR) as (fr & Efr & E1 & E2).
  eexists _, fr. split; [exact E|].
  split_and!; [done| |apply (rep_ativos HR)|done..].
  apply (rep_tam _ _ _ HR).
Qed.

(** X2. In every reachable file the keys of the active chain are pairwise
    distinct. *)
Theorem chaves_distintas (a : arquivo) :
  alcancavel qualquer a ->
  exists l, ativos a = Some l /\ NoDup (map chave_de l).
Proof.
  intros [Hs|(L & F & HR & HN)]%alcancavel_rep.
  - destruct (sem_nos_cadeias _ Hs) as (E & _). exists []. split; [done|].
    constructor.
  - exists (celulas (-1) L (-1)). split; [apply (rep_ativos HR)|].
    by rewrite celulas_chaves_L.
Qed.

(** X3. In every reachable file [pesquisa] returns [false] exactly for the
    keys that no active cell holds, and for a key of the active chain it
    returns [true] with the cell of the chain that holds it; it changes
    nothing. *)
Theorem pesquisa_correta (a : arquivo) (k : Z) :
  alcancavel qualquer a ->
  exists l,
    ativos a = Some l /\
    (((k ∉ map chave_de l) /\ pesquisa k a = Val None a) \/
     (exists x, x ∈ l /\ chave_de x = k /\ pesquisa k a = Val (Some x.2) a)).
Proof.
  intros [Hs|(L & F & HR & HN)]%alcancavel_rep.
  - destruct (sem_nos_cadeias _ Hs) as (E & _). exists []. split; [done|].
    left. split; [apply not_elem_of_nil|].
    destruct Hs as (_ & _ & Hf & _). unfold pesquisa.
    by rewrite bind_lerCab, bind_combustivel, Hf.
  - exists (celulas (-1) L (-1)). split; [apply (rep_ativos HR)|].
    rewrite celulas_chaves_L.
    destruct (separa_chave k L) as [HK|(L1 & x & L2 & -> & H1 & Hx)].
    + left. split; [by apply chave_fora|by eapply pesquisa_ausente].
    + right. subst k.
      exists (x.1, No (cabeca L2 (-1)) (ultimo L1 (-1)) x.2).
      split_and!; [|done|by eapply pesquisa_presente].
      rewrite celulas_app. apply elem_of_app. right. left.
Qed.

(** X4. In a reachable file of capacity at least 1, [inserir] and
    [inserirOrdenado] end with the same message: "chave ja existente"
    exactly when the key is on the active chain; otherwise "arquivo cheio"
    exactly when [quant = tam]; otherwise the record is inserted. *)
Theorem resultado_da_insercao (a : arquivo) (d : dados) :
  alcancavel qualquer a -> 1 <= tam (cab a) ->
  exists l w a1 a2,
    ativos a = Some l /\
    inserir d a = Val w a1 /\ inserirOrdenado d a = Val w a2 /\
    (w = ChaveJaExistente <-> chave d ∈ map chave_de l) /\
    (w = ArquivoCheio <->
     (chave d ∉ map chave_de l) /\ quant (cab a) = tam (cab a)) /\
    (w = Inserido <->
     (chave d ∉ map chave_de l) /\ quant (cab a) < tam (cab a)).
Proof.
  intros [Hs|(L & F & HR & HN)]%alcancavel_rep Ht.
  { destruct Hs as (_ & _ & _ & _ & _ & ?). lia. }
  exists (celulas (-1) L (-1)). rewrite celulas_chaves_L, (rep_ativos HR).
  pose proof (rep_length HR) as Hlen. pose proof (rep_tam _ _ _ HR) as Htam.
  pose proof (rep_quant _ _ _ HR) as Hq.
  destruct (separa_chave (chave d) L) as [HK|(L1 & x & L2 & -> & H1 & Hx)].
  - pose proof (proj1 (chave_fora _ _) HK) as HK'. destruct F as [|c F].
    + destruct (inserir_cheio d HR HK eq_refl) as [E1 E2].
      exists ArquivoCheio, a, a. cbn [length] in Hlen.
      split_and!; [done..| | |]; intuition first [discriminate | lia | done].
    + destruct (inserir_ok _ _ _ _ d HR HK) as (a1 & E1 & _).
      destruct (separa_maior (chave d) L) as (L1 & L2 & -> & H1 & H2).
      destruct (inserirOrdenado_ok _ _ _ _ _ d HR HK H1 H2) as (a2 & E2 & _).
      exists Inserido, a1, a2. cbn [length] in Hlen.
      split_and!; [done..| | |]; intuition first [discriminate | lia | done].
  - assert (HN' : ~ Forall (fun y => chave y.2 <> chave d) (L1 ++ x :: L2)).
    { intros [_ HF]%Forall_app. by inversion HF. }
    destruct (inserir_existente d HR HN') as [E1 E2].
    assert (chave d ∈ map (fun x => chave x.2) (L1 ++ x :: L2)).
    { rewrite map_app, elem_of_app. right. rewrite <- Hx. left. }
    exists ChaveJaExistente, a, a.
    split_and!; [done..| | |]; intuition first [discriminate | lia | done].
Qed.

(** ** What a successful operation does *)

Lemma inserir_sem_nos a d :
  sem_nos a ->
  inserir d a = Erro ForaDoArquivo /\
  inserirOrdenado d a = Erro ForaDoArquivo.
Proof.
  intros (Hn & Hq & Hf & Hl & Hfr & Ht).
  assert (HP : pesquisa (chave d) a = Val None a).
  { unfold pesquisa. by rewrite bind_lerCab, bind_combustivel, Hf. }
  assert (HL : lerNo 1 a = Erro ForaDoArquivo).
  { unfold lerNo. by rewrite Hn. }
  unfold inserir, inserirOrdenado.
  rewrite !(bind_val _ _ _ _ _ HP), !bind_lerCab, Hfr.
  change (1 =? -1) with false. cbv iota.
  by rewrite !(bind_erro _ _ _ _ HL).
Qed.

Lemma remover_sem_nos a k : sem_nos a -> remover k a = Val false a.
Proof.
  intros (Hn & Hq & Hf & Hl & Hfr & Ht). unfold remover.
  by rewrite bind_lerCab, bind_combustivel, Hf.
Qed.

Lemma rep_livres_cons a L c F :
  Rep a L (c :: F) ->
  exists n fr, livres a = Some ((c, n) :: fr) /\ fr.*1 = F.
Proof.
  intros HR. destruct (rep_livres HR) as (fr & E & E1 & _).
  destruct fr as [|[c' n] fr]; [done|]. injection E1 as -> E1.
  by exists n, fr.
Qed.

(** X5. A successful [inserir] puts the record at the end of the active
    chain, in the cell that headed the free chain: the records of the chain
    are the former ones followed by the new one, the new cell has
    [next = -1] and the former [last] as [prev], the free chain loses its
    head, and [quant] grows by one. *)
Theorem inserir_no_fim (a a' : arquivo) (d : dados) :
  alcancavel qualquer a -> inserir d a = Val Inserido a' ->
  exists rs c n fr fr',
    registros a = Some rs /\ registros a' = Some (rs ++ [d]) /\
    livres a = Some ((c, n) :: fr) /\ livres a' = Some fr' /\
    fr'.*1 = fr.*1 /\
    last (cab a') = c /\
    no_em (nos a') c = Some (No (-1) (last (cab a)) d) /\
    quant (cab a') = quant (cab a) + 1 /\ tam (cab a') = tam (cab a).
Proof.
  intros [Hs|(L & F & HR & HN)]%alcancavel_rep H.
  { destruct (inserir_sem_nos a d Hs) as [E _]. by rewrite E in H. }
  destruct (inserir_casos _ _ _ _ _ _ HR H)
    as [(? & _)|[(? & _)|(_ & HK & c & F' & -> & HR')]]; [done..|].
  destruct (rep_livres_cons _ _ _ _ HR) as (n & fr & E & E1).
  destruct (rep_livres HR') as (fr' & E' & E1' & _).
  exists L.*2, c, n, fr, fr'.
  rewrite (rep_registros _ _ _ HR), (rep_registros _ _ _ HR'), fmap_app.
  split_and!; [done..|by rewrite E1', E1| | | |].
  - by rewrite (rep_last _ _ _ HR'), ultimo_app.
  - rewrite (rep_last _ _ _ HR).
    apply (dll_ultimo _ _ _ _ _ (rep_dll _ _ _ HR')).
  - rewrite (rep_quant _ _ _ HR'), (rep_quant _ _ _ HR), length_app.
    cbn [length]. lia.
  - pose proof (rep_tam _ _ _ HR) as H1. pose proof (rep_tam _ _ _ HR') as H2.
    pose proof (rep_length HR) as H3. pose proof (rep_length HR') as H4.
    rewrite length_app in H4. cbn [length] in *. lia.
Qed.

(** X6. A successful [inserirOrdenado] puts the record before the first
    record of the chain whose key is greater, or at the end when there is
    none; the records before it all have smaller keys.  The other records
    keep their order, whether the chain was sorted or not. *)
Theorem inserirOrdenado_posicao (a a' : arquivo) (d : dados) :
  alcancavel qualquer a -> inserirOrdenado d a = Val Inserido a' ->
  exists r1 r2,
    registros a = Some (r1 ++ r2) /\
    registros a' = Some (r1 ++ d :: r2) /\
    Forall (fun r => chave r < chave d) r1 /\
    match r2 with [] => True | r :: _ => chave d < chave r end /\
    quant (cab a') = quant (cab a) + 1.
Proof.
  intros [Hs|(L & F & HR & HN)]%alcancavel_rep H.
  { destruct (inserir_sem_nos a d Hs) as [_ E]. by rewrite E in H. }
  destruct (inserirOrdenado_casos _ _ _ _ _ _ HR H)
    as [(? & _)|[(? & _)|(_ & HK & c & F' & L1 & L2 & -> & -> & H1 & H2 & HR')]];
    [done..|].
  exists L1.*2, L2.*2.
  rewrite (rep_registros _ _ _ HR), (rep_registros _ _ _ HR'), !fmap_app.
  split_and!; [done|done| | |].
  - apply Forall_app in HK as [HK1 _]. apply Forall_fmap.
    rewrite list.Forall_forall in H1, HK1 |- *. intros x Hx. cbn.
    specialize (H1 x Hx). specialize (HK1 x Hx). lia.
  - destruct L2 as [|x L2]; [done|]. cbn. lia.
  - rewrite (rep_quant _ _ _ HR'), (rep_quant _ _ _ HR), !length_app.
    cbn [length]. lia.
Qed.

(** X7. A successful [remover] takes the record with the given key out of
    the active chain, the other records keeping their order; no record with
    that key is left.  The cell the record occupied gets the key [-1] and
    becomes the head of the free chain, in front of the former free cells;
    [quant] decreases by one. *)
Theorem remover_efeito (a a' : arquivo) (k : Z) :
  alcancavel qualquer a -> remover k a = Val true a' ->
  exists r1 x r2 c fr fr',
    registros a = Some (r1 ++ x :: r2) /\ chave x = k /\
    registros a' = Some (r1 ++ r2) /\
    Forall (fun r => chave r <> k) (r1 ++ r2) /\
    (exists n, no_em (nos a) c = Some n /\ reg n = x) /\
    (exists n', no_em (nos a') c = Some n' /\ chave (reg n') = -1) /\
    livres a = Some fr /\ livres a' = Some fr' /\ fr'.*1 = c :: fr.*1 /\
    free (cab a') = c /\
    quant (cab a') = quant (cab a) - 1 /\ tam (cab a') = tam (cab a).
Proof.
  intros [Hs|(L & F & HR & HN)]%alcancavel_rep H.
  { by rewrite (remover_sem_nos _ _ Hs) in H. }
  destruct (remover_casos _ _ _ _ _ _ HR H)
    as [(? & _)|(_ & L1 & x & L2 & -> & Hx & H1 & HR')]; [done|].
  destruct (rep_livres HR) as (fr & E & E1 & _).
  destruct (rep_livres HR') as (fr' & E' & E1' & _).
  exists L1.*2, x.2, L2.*2, x.1, fr, fr'.
  rewrite (rep_registros _ _ _ HR), (rep_registros _ _ _ HR'), !fmap_app.
  split_and!; [done..| | | |done|done|by rewrite E1', E1| | |].
  - rewrite map_app in HN. cbn [map] in HN.
    rewrite <- Permutation_middle in HN.
    apply list.NoDup_cons in HN as [HN _]. rewrite <- map_app in HN.
    apply chave_fora in HN. rewrite <- fmap_app. apply Forall_fmap.
    eapply Forall_impl; [exact HN|]. intros y Hy. cbn. by rewrite <- Hx.
  - pose proof (rep_dll _ _ _ HR) as [_ HD]%dll_app.
    apply dll_primeiro in HD. by eexists.
  - destruct (rep_fl _ _ _ HR') as [[nm Hc] _]. by eexists.
  - by rewrite (rep_free _ _ _ HR').
  - rewrite (rep_quant _ _ _ HR'), (rep_quant _ _ _ HR), !length_app.
    cbn [length]. lia.
  - pose proof (rep_tam _ _ _ HR) as H2. pose proof (rep_tam _ _ _ HR') as H3.
    pose proof (rep_length HR) as H4. pose proof (rep_length HR') as H5.
    rewrite !length_app in *. cbn [length] in *. lia.
Qed.

(** X8. In every reachable file [remover] returns [true] exactly when the
    key is on the active chain, and after the call, whatever it returned,
    [pesquisa] does not find that key. *)
Theorem remover_sse_ativa (a : arquivo) (k : Z) :
  alcancavel qualquer a ->
  exists l b a',
    ativos a = Some l /\ remover k a = Val b a' /\
    (b = true <-> k ∈ map chave_de l) /\
    pesquisa k a' = Val None a'.
Proof.
  intros [Hs|(L & F & HR & HN)]%alcancavel_rep.
  { destruct (sem_nos_cadeias _ Hs) as (E & _). exists [], false, a.
    split_and!; [done|by apply remover_sem_nos| |].
    - split; [done|]. by intros ?%elem_of_nil.
    - destruct Hs as (_ & _ & Hf & _). unfold pesquisa.
      by rewrite bind_lerCab, bind_combustivel, Hf. }
  exists (celulas (-1) L (-1)). rewrite celulas_chaves_L, (rep_ativos HR).
  destruct (separa_chave k L) as [HK|(L1 & x & L2 & -> & H1 & Hx)].
  - exists false, a.
    split_and!; [done|by eapply remover_ausente| |by eapply pesquisa_ausente].
    split; [done|]. intros Hin. by apply chave_fora in HK.
  - subst k. destruct (remover_ok _ _ _ _ _ HR H1) as (a' & E & HR').
    exists true, a'. split_and!; [done|done| |].
    + split; [|done]. intros _. rewrite map_app, elem_of_app. right. left.
    + apply (pesquisa_ausente _ _ _ _ HR').
      rewrite map_app in HN. cbn [map] in HN.
      rewrite <- Permutation_middle in HN.
      apply list.NoDup_cons in HN as [HN _]. rewrite <- map_app in HN.
      by apply chave_fora in HN.
Qed.

(** X9. The cell freed by [remover] is the one the next successful
    [inserir] fills: the new record is written where the removed one was. *)
Theorem reutiliza_no_liberado (a a1 a2 : arquivo) (k : Z) (d : dados) :
  alcancavel qualquer a ->
  remover k a = Val true a1 ->
  inserir d a1 = Val Inserido a2 ->
  exists c n,
    no_em (nos a) c = Some n /\ chave (reg n) = k /\
    (exists l, ativos a = Some l /\ (c, n) ∈ l) /\
    no_em (nos a2) c = Some (No (-1) (last (cab a1)) d) /\
    last (cab a2) = c.
Proof.
  intros [Hs|(L & F & HR & HN)]%alcancavel_rep H1 H2.
  { by rewrite (remover_sem_nos _ _ Hs) in H1. }
  destruct (remover_casos _ _ _ _ _ _ HR H1)
    as [(? & _)|(_ & L1 & x & L2 & -> & Hx & HK1 & HR1)]; [done|].
  destruct (inserir_casos _ _ _ _ _ _ HR1 H2)
    as [(? & _)|[(? & _)|(_ & HK & c & F' & [= <- <-] & HR2)]]; [done..|].
  pose proof (rep_dll _ _ _ HR) as [_ HD]%dll_app.
  apply dll_primeiro in HD. eexists x.1, _. split_and!; [exact HD|done| | |].
  - eexists. split; [apply (rep_ativos HR)|].
    rewrite celulas_app. apply elem_of_app. right. left.
  - rewrite (rep_last _ _ _ HR1).
    apply (dll_ultimo _ _ _ _ _ (rep_dll _ _ _ HR2)).
  - by rewrite (rep_last _ _ _ HR2), ultimo_app.
Qed.

(** X10. In a reachable file of capacity at least 1 the active chain has
    [quant] cells and the free chain the remaining [tam - quant]. *)
Theorem contagem_das_cadeias (a : arquivo) :
  alcancavel qualquer a -> 1 <= tam (cab a) ->
  exists l fr,
    ativos a = Some l /\ livres a = Some fr /\
    Z.of_nat (length l) = quant (cab a) /\
    Z.of_nat (length fr) = tam (cab a) - quant (cab a) /\
    0 <= quant (cab a) <= tam (cab a).
Proof.
  intros [Hs|(L & F & HR & HN)]%alcancavel_rep Ht.
  { destruct Hs as (_ & _ & _ & _ & _ & ?). lia. }
  destruct (rep_livres HR) as (fr & E & E1 & _).
  exists (celulas (-1) L (-1)), fr.
  rewrite (rep_ativos HR), celulas_length, (rep_quant _ _ _ HR).
  pose proof (rep_length HR) as H1. pose proof (rep_tam _ _ _ HR) as H2.
  assert (length fr = length F) by (by rewrite <- E1, length_fmap).
  split_and!; [done|done|done|lia|lia|lia].
Qed.

(** ** Operations on different keys *)

Lemma acha_fora k L1 L2 :
  Forall (fun x => chave x.2 <> k) L1 -> acha k (L1 ++ L2) = acha k L2.
Proof.
  induction 1 as [|x L1 Hx _ IH]; [done|]. cbn [app acha].
  by destruct (Z.eqb_spec (chave x.2) k).
Qed.

Lemma acha_sem k L1 y L2 :
  chave y.2 <> k -> acha k (L1 ++ y :: L2) = acha k (L1 ++ L2).
Proof.
  intros Hy. induction L1 as [|x L1 IH]; cbn [app acha].
  - by destruct (Z.eqb_spec (chave y.2) k).
  - by rewrite IH.
Qed.

Lemma pesquisa_acha a L F k :
  Rep a L F -> exists r, pesquisa k a = Val r a /\ reg <$> r = acha k L.
Proof.
  intros HR.
  destruct (separa_chave k L) as [HK|(L1 & x & L2 & -> & H1 & Hx)].
  - exists None. split; [by eapply pesquisa_ausente|].
    pose proof (acha_fora k L [] HK) as E. by rewrite app_nil_r in E.
  - subst k. eexists. split; [by eapply pesquisa_presente|].
    rewrite acha_fora by done. cbn. by rewrite Z.eqb_refl.
Qed.

(** X11. An insertion or a removal of one key leaves the record found for
    every other key as it was: found before exactly when found after, with
    the same key and name. *)
Theorem outras_chaves_intactas (a a' : arquivo) (o : op) (k : Z) :
  alcancavel qualquer a -> executa o a = Val tt a' -> chave_op o <> k ->
  exists r r',
    pesquisa k a = Val r a /\ pesquisa k a' = Val r' a' /\
    reg <$> r = reg <$> r'.
Proof.
  intros [Hs|(L & F & HR & HN)]%alcancavel_rep He Hk.
  { rewrite (executa_sem_nos _ _ _ Hs He). exists None, None.
    destruct Hs as (_ & _ & Hf & _). unfold pesquisa.
    by rewrite bind_lerCab, bind_combustivel, Hf. }
  destruct (pesquisa_acha _ _ _ k HR) as (r & Er & Hr).
  assert (HA : exists L' F', Rep a' L' F' /\ acha k L' = acha k L).
  { destruct o as [d|d|k0]; cbn in Hk;
      apply bind_inv in He as (w & a1 & H & [= <-]).
    - destruct (inserir_casos _ _ _ _ _ _ HR H)
        as [(_ & -> & _)|[(_ & -> & _)|(_ & _ & c & F' & -> & HR')]];
        [by exists L, F..|].
      exists (L ++ [(c, d)]), F'. split; [done|].
      rewrite (acha_sem k L (c, d) []) by done. by rewrite app_nil_r.
    - destruct (inserirOrdenado_casos _ _ _ _ _ _ HR H)
        as [(_ & -> & _)|[(_ & -> & _)|
            (_ & _ & c & F' & L1 & L2 & -> & -> & _ & _ & HR')]];
        [by exists L, F..|].
      exists (L1 ++ (c, d) :: L2), F'. split; [done|].
      by apply (acha_sem k L1 (c, d) L2).
    - destruct (remover_casos _ _ _ _ _ _ HR H)
        as [(_ & -> & _)|(_ & L1 & x & L2 & -> & Hx & _ & HR')];
        [by exists L, F|].
      exists (L1 ++ L2), (x.1 :: F). split; [done|]. symmetry.
      apply acha_sem. by rewrite Hx. }
  destruct HA as (L' & F' & HR' & HA).
  destruct (pesquisa_acha _ _ _ k HR') as (r' & Er' & Hr').
  exists r, r'. split_and!; [done..|]. by rewrite Hr, Hr', HA.
Qed.

(** ** inserirOrdenado against inserir *)

Lemma insercao_no_fim_igual a L0 y c F d :
  Rep a (L0 ++ [y]) (c :: F) ->
  Forall (fun x => chave x.2 <> chave d) (L0 ++ [y]) ->
  Forall (fun x => chave x.2 <= chave d) (L0 ++ [y]) ->
  inserir d a = inserirOrdenado d a.
Proof.
  intros HR HK H1. set (L := L0 ++ [y]) in *.
  pose proof (rep_fl _ _ _ HR) as [[nm Hc] HF].
  pose proof (rep_dll _ _ _ HR) as HD.
  pose proof (dll_ultimo _ _ _ _ _ HD) as Hy.
  assert (HR0 : Rep a (L ++ []) (c :: F)) by (by rewrite app_nil_r).
  pose proof (procura_val _ L [] _ (chave d) HR0 H1 I) as HP.
  rewrite app_nil_r in HP. cbn [cabeca] in HP.
  assert (Hu : ultimo L (-1) = y.1) by (unfold L; by rewrite ultimo_app).
  assert (Hh : (cabeca L (-1) =? -1) = false).
  { unfold L in *. destruct L0; apply dll_primeiro in HD;
      by eapply cursor_nao_fim. }
  assert (Hcy : c <> y.1).
  { pose proof (rep_NoDup HR) as (_ & NLF & _)%list.NoDup_app.
    intros ->. eapply (NLF y.1); [|left].
    unfold L. rewrite fmap_app, elem_of_app. right; left. }
  pose proof (no_em_Some _ _ _ Hy) as Hy1.
  pose proof (no_em_atualiza_ne (nos a) y.1 (No c (ultimo L0 (-1)) y.2) c
                ltac:(lia) Hcy) as Hc'.
  rewrite Hc in Hc'.
  transitivity (Val Inserido
    (Arquivo (Cabecalho (wrap (quant (cab a) + 1)) (cabeca L (-1)) c
                        (hd (-1) F) (tam (cab a)))
             (atualiza (atualiza (nos a) y.1 (No c (ultimo L0 (-1)) y.2))
                       c (No (-1) y.1 d)))).
  - unfold inserir.
    rewrite (bind_val _ _ _ _ _ (pesquisa_ausente _ _ _ _ HR HK)).
    rewrite bind_lerCab, (rep_free _ _ _ HR). cbn [hd].
    rewrite (cursor_nao_fim _ _ _ Hc), (bind_val _ _ _ _ _ (lerNo_val _ _ _ Hc)).
    cbn [next]. rewrite (rep_last _ _ _ HR), (rep_first _ _ _ HR).
    rewrite Hh, Hu, (cursor_nao_fim _ _ _ Hy). cbn [negb].
    rewrite (bind_val _ _ _ _ _ (religa_val _ _ _ (fun x => com_next x c) Hy)).
    cbn [com_next prev reg].
    rewrite (bind_val _ _ _ _ _ (escreverNo_val (Arquivo _ _) _ _ _ Hc')).
    by rewrite bind_escreverCab.
  - symmetry. unfold inserirOrdenado.
    rewrite (bind_val _ _ _ _ _ (pesquisa_ausente _ _ _ _ HR HK)).
    rewrite bind_lerCab, (rep_free _ _ _ HR). cbn [hd].
    rewrite (cursor_nao_fim _ _ _ Hc), (bind_val _ _ _ _ _ (lerNo_val _ _ _ Hc)).
    cbn [next]. rewrite (rep_last _ _ _ HR), (rep_first _ _ _ HR).
    rewrite Hh, bind_assoc, bind_combustivel.
    rewrite bind_assoc, (bind_val _ _ _ _ _ HP). cbn [fst snd].
    rewrite Z.eqb_sym, Hh. change (-1 =? -1) with true. cbv iota.
    rewrite Hu, !bind_assoc.
    rewrite (bind_val _ _ _ _ _ (lerNo_val _ _ _ Hy)), bind_assoc.
    rewrite (bind_val _ _ _ _ _ (escreverNo_val _ _ _ _ Hy)), bind_ret.
    cbn [fst snd free quant first last tam com_next prev reg].
    rewrite (bind_val _ _ _ _ _ (escreverNo_val (Arquivo _ _) _ _ _ Hc')).
    by rewrite bind_escreverCab.
Qed.

(** X12. When no key of the active chain is greater than the key of the
    new record, [inserirOrdenado] does exactly what [inserir] does: the same
    message and the same file, header and cells, at the end. *)
Theorem inserirOrdenado_como_inserir (a : arquivo) (d : dados)
    (l : list (Z * no)) :
  alcancavel qualquer a ->
  ativos a = Some l ->
  Forall (fun x => chave_de x <= chave d) l ->
  inserir d a = inserirOrdenado d a.
Proof.
  intros [Hs|(L & F & HR & HN)]%alcancavel_rep Hl Hle.
  { destruct Hs as (_ & _ & Hf & Hu & _). by apply inserir_lista_vazia. }
  rewrite (rep_ativos HR) in Hl. injection Hl as <-.
  assert (H1 : Forall (fun x => chave x.2 <= chave d) L).
  { apply list.Forall_forall. intros x Hx.
    assert (Hin : chave x.2 ∈ map chave_de (celulas (-1) L (-1))).
    { rewrite celulas_chaves_L.
      by apply (list_elem_of_fmap_2 (fun x : Z * dados => chave x.2)). }
    apply list_elem_of_fmap in Hin as (z & -> & Hz).
    rewrite list.Forall_forall in Hle. by apply Hle. }
  destruct (separa_chave (chave d) L) as [HK|(L1 & x & L2 & -> & _ & Hx)].
  - destruct F as [|c F].
    + destruct (inserir_cheio d HR HK eq_refl) as [E1 E2]. by rewrite E1, E2.
    + destruct (separa_ultimo L) as [->|(L0 & y & ->)].
      * apply inserir_lista_vazia;
          [by rewrite (rep_first _ _ _ HR)|by rewrite (rep_last _ _ _ HR)].
      * by eapply insercao_no_fim_igual.
  - destruct (inserir_existente d HR) as [E1 E2]; [|by rewrite E1, E2].
    intros [_ HF]%Forall_app. by inversion HF.
Qed.

(** ** The dumps *)

Lemma imprimirLista_laco_val a : forall L p fuel ult,
  dll (nos a) p L (-1) -> NoDup L.*1 -> L <> [] ->
  ult = ultimo L (-1) -> (length L < fuel)%nat ->
  imprimirLista_laco fuel ult (cabeca L (-1)) a =
  Val (map (fun x => linha_lista x.1 x.2) (celulas p L (-1))) a.
Proof.
  induction L as [|x L IH]; intros p fuel ult HD ND HL Hu Hf; [done|].
  destruct fuel as [|fuel]; [simpl in Hf; lia|].
  apply dll_cons in HD as [Hx HD].
  rewrite fmap_cons in ND. apply list.NoDup_cons in ND as [Nx ND].
  cbn [cabeca imprimirLista_laco celulas map].
  rewrite (cursor_nao_fim _ _ _ Hx), (bind_val _ _ _ _ _ (lerNo_val _ _ _ Hx)).
  cbn [next fst snd]. destruct L as [|y L].
  - cbn [ultimo] in Hu. subst ult. by rewrite Z.eqb_refl.
  - assert (Hne : (x.1 =? ult) = false).
    { apply Z.eqb_neq. intros E. apply Nx. rewrite E, Hu.
      change (ultimo (x :: y :: L) (-1)) with (ultimo (y :: L) x.1).
      by apply ultimo_elem. }
    rewrite Hne.
    rewrite (bind_val _ _ _ _ _ (IH x.1 fuel ult HD ND ltac:(done)
                                   ltac:(by rewrite Hu)
                                   ltac:(simpl in *; lia))).
    done.
Qed.

(** X13. In every reachable file [imprimirLista] changes nothing and prints
    [Lista vazia!] when the active chain is empty, else one line for each
    cell of the chain, from [first] to [last] in the order of the chain,
    [quant] lines in all. *)
Theorem imprimirLista_cadeia (a : arquivo) :
  alcancavel qualquer a ->
  exists l,
    ativos a = Some l /\ Z.of_nat (length l) = quant (cab a) /\
    imprimirLista a =
      Val (cab a,
           match l with
           | [] => ListaVazia
           | _ => Registros (map (fun x => linha_lista x.1 x.2) l)
           end) a.
Proof.
  intros [Hs|(L & F & HR & HN)]%alcancavel_rep.
  { destruct (sem_nos_cadeias _ Hs) as (E & _).
    destruct Hs as (_ & Hq & Hf & _). exists []. unfold imprimirLista.
    by rewrite E, Hq, bind_lerCab, Hf. }
  exists (celulas (-1) L (-1)).
  rewrite (rep_ativos HR), celulas_length, (rep_quant _ _ _ HR).
  split_and!; [done..|]. unfold imprimirLista.
  rewrite bind_lerCab, (rep_first _ _ _ HR), (rep_last _ _ _ HR).
  destruct L as [|x L]; [done|].
  pose proof (dll_primeiro _ _ _ _ _ (rep_dll _ _ _ HR)) as Hx.
  pose proof (rep_NoDup HR) as [ND _]%list.NoDup_app.
  pose proof (rep_length HR) as Hlen.
  change (cabeca (x :: L) (-1)) with x.1 at 1.
  rewrite (cursor_nao_fim _ _ _ Hx), bind_combustivel.
  rewrite (bind_val _ _ _ _ _
             (imprimirLista_laco_val a (x :: L) (-1) (S (length (nos a))) _
                (rep_dll _ _ _ HR)
                ND ltac:(done) eq_refl ltac:(lia))).
  done.
Qed.

Lemma imprimirFree_laco_val a fuel : forall c fr,
  cadeia next fuel (nos a) c = Some fr ->
  imprimirFree_laco fuel c a = Val (map (fun x => (x.1, next x.2)) fr) a.
Proof.
  induction fuel as [|fuel IH]; intros c fr; cbn [cadeia imprimirFree_laco];
    destruct (c =? -1); try by intros [= <-].
  destruct (no_em (nos a) c) as [n|] eqn:E; [|done].
  destruct (cadeia next fuel (nos a) (next n)) as [fr'|] eqn:E'; [|done].
  intros [= <-]. rewrite (bind_val _ _ _ _ _ (lerNo_val _ _ _ E)).
  by rewrite (bind_val _ _ _ _ _ (IH _ _ E')).
Qed.

(** X14. In a reachable file of capacity at least 1, [imprimirFree] changes
    nothing and prints one line for each cell of the free chain, in the
    order of the chain: [tam - quant] lines, whose positions are, each
    once, the cursors of [1..tam] that are not on the active chain. *)
Theorem imprimirFree_cadeia (a : arquivo) :
  alcancavel qualquer a -> 1 <= tam (cab a) ->
  exists l ls,
    ativos a = Some l /\
    imprimirFree a = Val (free (cab a), ls) a /\
    Z.of_nat (length ls) = tam (cab a) - quant (cab a) /\
    NoDup ls.*1 /\
    forall c, c ∈ ls.*1 <-> 1 <= c <= tam (cab a) /\ c ∉ l.*1.
Proof.
  intros [Hs|(L & F & HR & HN)]%alcancavel_rep Ht.
  { destruct Hs as (_ & _ & _ & _ & _ & ?). lia. }
  destruct (rep_livres HR) as (fr & E & E1 & _).
  exists (celulas (-1) L (-1)), (map (fun x => (x.1, next x.2)) fr).
  pose proof (rep_NoDup HR) as ND.
  apply list.NoDup_app in ND as (NL & NLF & NF).
  assert (EF : (map (fun x : Z * no => (x.1, next x.2)) fr).*1 = F).
  { rewrite <- E1. clear. induction fr as [|x fr IH]; [done|].
    cbn. by rewrite <- IH. }
  rewrite EF, celulas_fst, (rep_ativos HR), length_map.
  split_and!; [done| | |done|].
  - unfold imprimirFree. rewrite bind_lerCab, bind_combustivel.
    by rewrite (bind_val _ _ _ _ _ (imprimirFree_laco_val _ _ _ _ E)).
  - pose proof (rep_length HR) as H1. pose proof (rep_tam _ _ _ HR) as H2.
    assert (length fr = length F) by (by rewrite <- E1, length_fmap).
    rewrite (rep_quant _ _ _ HR). lia.
  - intros c. rewrite <- (rep_cursor HR c), elem_of_app. split.
    + intros Hc. split; [by right|]. intros Hin. by apply (NLF c).
    + intros [[?|?] ?]; done.
Qed.

Lemma imprimirEstrutura_laco_val a tam_ : forall suf pre fuel,
  nos a = pre ++ suf -> Z.of_nat (length (nos a)) = tam_ -> tam_ < INT_MAX ->
  (length suf < fuel)%nat ->
  imprimirEstrutura_laco fuel (Z.of_nat (length pre) + 1)
    (Z.of_nat (length pre) + 1) tam_ a =
  Val (zip_with linha_estrutura
         (seqZ (Z.of_nat (length pre) + 1) (Z.of_nat (length suf))) suf) a.
Proof.
  induction suf as [|x suf IH]; intros pre fuel Hns Ht Hmax Hf.
  - rewrite Hns, app_nil_r in Ht. destruct fuel; cbn [imprimirEstrutura_laco];
      (destruct (Z.leb_spec (Z.of_nat (length pre) + 1) tam_); [lia|done]).
  - destruct fuel as [|fuel]; [simpl in Hf; lia|].
    pose proof Ht as Ht'. rewrite Hns, length_app in Ht'. cbn [length] in *.
    cbn [imprimirEstrutura_laco].
    destruct (Z.leb_spec (Z.of_nat (length pre) + 1) tam_); [|lia].
    assert (Hx : no_em (nos a) (Z.of_nat (length pre) + 1) = Some x).
    { unfold no_em. destruct (Z.leb_spec 1 (Z.of_nat (length pre) + 1)); [|lia].
      replace (Z.to_nat (Z.of_nat (length pre) + 1 - 1)) with (length pre)
        by lia.
      rewrite Hns. apply list_lookup_middle. done. }
    rewrite (bind_val _ _ _ _ _ (lerNo_val _ _ _ Hx)).
    rewrite wrap_id by (unfold INT_MAX in *; lia).
    specialize (IH (pre ++ [x]) fuel). rewrite length_app in IH.
    cbn [length] in IH.
    replace (Z.of_nat (length pre + 1)) with (Z.of_nat (length pre) + 1)
      in IH by lia.
    rewrite (bind_val _ _ _ _ _
               (IH ltac:(by rewrite <- app_assoc) Ht Hmax ltac:(lia))).
    unfold ret. f_equal.
    rewrite (seqZ_cons _ (Z.of_nat (S (length suf)))) by lia.
    cbn [zip_with]. do 2 f_equal. f_equal; lia.
Qed.

Lemma alcancavel_valida_rep a :
  alcancavel chave_valida a ->
  sem_nos a \/ exists L F, Rep a L F /\ Forall (fun x => chave x.2 <> -1) L.
Proof.
  apply (alcancavel_inv chave_valida (Forall (fun x => chave x.2 <> -1)));
    [constructor|].
  intros o L F L' F' Ho HQ [[-> _]|Hp]; [done|].
  destruct o as [d|d|k]; cbn in Ho.
  - destruct Hp as (c & _ & -> & _). apply Forall_app. split; [done|].
    by constructor.
  - destruct Hp as (c & L1 & L2 & _ & -> & -> & _).
    apply Forall_app in HQ as [H1 H2]. apply Forall_app. split; [done|].
    by constructor.
  - destruct Hp as (L1 & x & L2 & -> & -> & _).
    apply Forall_app in HQ as [H1 H2%Forall_inv_tail]. by apply Forall_app.
Qed.

Lemma linhas_estrutura_em (ns : list no) ln :
  ln ∈ zip_with linha_estrutura (seqZ 1 (Z.of_nat (length ns))) ns <->
  exists c n, no_em ns c = Some n /\ ln = linha_estrutura c n.
Proof.
  rewrite elem_of_lookup_zip_with. split.
  - intros (i & c & n & E & Hc & Hn). subst ln. exists c, n. split; [|done].
    apply lookup_seqZ in Hc as [-> Hi]. unfold no_em.
    destruct (Z.leb_spec 1 (1 + Z.of_nat i)); [|lia].
    by replace (Z.to_nat (1 + Z.of_nat i - 1)) with i by lia.
  - intros (c & n & Hn & E). subst ln. pose proof (no_em_Some _ _ _ Hn) as Hr.
    unfold no_em in Hn. destruct (Z.leb_spec 1 c); [|lia].
    exists (Z.to_nat (c - 1)), c, n. split_and!; [done| |done].
    apply lookup_seqZ. lia.
Qed.

Lemma linhas_estrutura_pos (ns : list no) i :
  map lin_pos (zip_with linha_estrutura (seqZ i (Z.of_nat (length ns))) ns) =
  seqZ i (Z.of_nat (length ns)).
Proof.
  revert i. induction ns as [|n ns IH]; intros i; [done|].
  rewrite (seqZ_cons i (Z.of_nat (length (n :: ns)))) by (simpl; lia).
  cbn [zip_with map length].
  replace (Z.pred (Z.of_nat (S (length ns)))) with (Z.of_nat (length ns))
    by lia.
  rewrite IH. f_equal. unfold linha_estrutura. by destruct (_ =? _).
Qed.

Lemma rep_celula_valida a L F c n :
  Rep a L F -> Forall (fun x => chave x.2 <> -1) L ->
  no_em (nos a) c = Some n ->
  (chave (reg n) <> -1 /\ (c, n) ∈ celulas (-1) L (-1)) \/
  (chave (reg n) = -1 /\ c ∈ F /\ c ∉ L.*1).
Proof.
  intros HR HV Hn. pose proof (no_em_Some _ _ _ Hn) as Hr.
  rewrite (rep_tam _ _ _ HR) in Hr. apply (rep_cursor HR) in Hr.
  pose proof (rep_NoDup HR) as (_ & NLF & _)%list.NoDup_app.
  apply elem_of_app in Hr as [Hin|Hin].
  - left. rewrite <- (celulas_fst (-1) L (-1)) in Hin.
    apply list_elem_of_fmap in Hin as (x & -> & Hx).
    pose proof (rep_dll _ _ _ HR) as HD. unfold dll in HD.
    rewrite list.Forall_forall in HD. specialize (HD x Hx).
    rewrite Hn in HD. injection HD as ->. split; [|by destruct x].
    destruct (celulas_elem _ _ _ _ Hx) as (L0 & y & L' & -> & ->).
    apply Forall_app in HV as [_ HV]. by inversion HV.
  - right. destruct (fl_em _ _ _ (rep_fl _ _ _ HR) Hin) as (n' & Hn' & Hk).
    rewrite Hn in Hn'. injection Hn' as <-. split_and!; [done..|].
    intros Hc. by apply (NLF c).
Qed.

(** X15. In a reachable file of capacity at least 1 where no inserted key
    was [-1], [imprimirEstrutura] changes nothing and prints one line for
    each position from 1 to [tam], in this order; a line shows [[LIVRE]]
    exactly when its position is on the free chain, and the other lines
    are, up to their order, the lines that [imprimirLista] prints. *)
Theorem imprimirEstrutura_linhas (a : arquivo) :
  alcancavel chave_valida a -> 1 <= tam (cab a) ->
  exists l fr ls,
    ativos a = Some l /\ livres a = Some fr /\
    imprimirEstrutura a = Val (cab a, ls) a /\
    map lin_pos ls = seqZ 1 (tam (cab a)) /\
    (forall ln, ln ∈ ls -> (lin_chave ln = None <-> lin_pos ln ∈ fr.*1)) /\
    filter (fun ln => is_Some (lin_chave ln)) ls ≡ₚ
      map (fun x => linha_lista x.1 x.2) l.
Proof.
  intros [Hs|(L & F & HR & HV)]%alcancavel_valida_rep Ht.
  { destruct Hs as (_ & _ & _ & _ & _ & ?). lia. }
  destruct (rep_livres HR) as (fr & E & E1 & _).
  pose proof (rep_tam _ _ _ HR) as Htam.
  set (ls := zip_with linha_estrutura
               (seqZ 1 (Z.of_nat (length (nos a)))) (nos a)).
  assert (Hls : forall ln, ln ∈ ls ->
            exists c n, no_em (nos a) c = Some n /\
                        ln = linha_estrutura c n).
  { intros ln. apply linhas_estrutura_em. }
  assert (Hpos : map lin_pos ls = seqZ 1 (tam (cab a))).
  { unfold ls. by rewrite linhas_estrutura_pos, Htam. }
  exists (celulas (-1) L (-1)), fr, ls. rewrite (rep_ativos HR), E1.
  split_and!; [done|done| |done| |].
  - unfold imprimirEstrutura. rewrite bind_lerCab, bind_combustivel.
    pose proof (imprimirEstrutura_laco_val a (tam (cab a)) (nos a) []
                  (S (length (nos a))) eq_refl Htam (rep_max _ _ _ HR)
                  ltac:(lia)) as EL.
    cbn [length] in EL. change (Z.of_nat 0 + 1) with 1 in EL.
    by rewrite (bind_val _ _ _ _ _ EL).
  - intros ln (c & n & Hn & ->)%Hls.
    destruct (rep_celula_valida _ _ _ _ _ HR HV Hn)
      as [[Hk Hin]|(Hk & Hin & _)]; unfold linha_estrutura.
    + destruct (Z.eqb_spec (chave (reg n)) (-1)); [done|]. cbn.
      split; [done|]. intros Hc.
      pose proof (rep_NoDup HR) as (_ & NLF & _)%list.NoDup_app.
      destruct (NLF c); [|done].
      rewrite <- (celulas_fst (-1) L (-1)).
      by apply (list_elem_of_fmap_2 fst _ (c, n)).
    + by destruct (Z.eqb_spec (chave (reg n)) (-1)).
  - apply NoDup_Permutation.
    + apply NoDup_filter. apply (NoDup_fmap_1 lin_pos).
      change (NoDup (map lin_pos ls)). rewrite Hpos. apply NoDup_seqZ.
    + apply (NoDup_fmap_1 lin_pos).
      replace (lin_pos <$> map (fun x : Z * no => linha_lista x.1 x.2)
                 (celulas (-1) L (-1))) with L.*1.
      { by pose proof (rep_NoDup HR) as (? & _)%list.NoDup_app. }
      rewrite <- (celulas_fst (-1) L (-1)).
      generalize (celulas (-1) L (-1)). clear.
      induction l as [|x l IH]; [done|]. cbn. by rewrite IH.
    + intros ln. rewrite list_elem_of_filter, list_elem_of_fmap. split.
      * intros [Hocc (c & n & Hn & ->)%Hls].
        destruct (rep_celula_valida _ _ _ _ _ HR HV Hn)
          as [[Hk Hin]|(Hk & _)]; unfold linha_estrutura in *.
        -- exists (c, n). split; [|done].
           by destruct (Z.eqb_spec (chave (reg n)) (-1)).
        -- destruct (Z.eqb_spec (chave (reg n)) (-1)); [|done].
           by destruct Hocc.
      * intros ([c n] & -> & Hx). cbn [fst snd].
        pose proof (rep_dll _ _ _ HR) as HD. unfold dll in HD.
        rewrite list.Forall_forall in HD. specialize (HD _ Hx). cbn in HD.
        destruct (rep_celula_valida _ _ _ _ _ HR HV HD)
          as [[Hk Hin]|(_ & _ & Hc)].
        -- assert (linha_lista c n = linha_estrutura c n) as ->.
           { unfold linha_estrutura.
             by destruct (Z.eqb_spec (chave (reg n)) (-1)). }
           split; [|apply linhas_estrutura_em; by exists c, n].
           unfold linha_estrutura.
           by destruct (Z.eqb_spec (chave (reg n)) (-1)).
        -- destruct Hc. rewrite <- (celulas_fst (-1) L (-1)).
           by apply (list_elem_of_fmap_2 fst _ (c, n)).
Qed.

(** ** The menu *)

Lemma imprimirLista_laco_le fuel ult : forall pos a ls a',
  imprimirLista_laco fuel ult pos a = Val ls a' -> a' = a.
Proof.
  induction fuel as [|fuel IH]; intros pos a ls a'; cbn [imprimirLista_laco];
    destruct (pos =? -1); try by intros [= _ <-].
  intros (l & a1 & ->%lerNo_inv & H)%bind_inv.
  destruct (pos =? ult); [by injection H as _ <-|].
  apply bind_inv in H as (? & a2 & ->%IH & H). by injection H as _ <-.
Qed.

Lemma imprimirFree_laco_le fuel : forall pos a ls a',
  imprimirFree_laco fuel pos a = Val ls a' -> a' = a.
Proof.
  induction fuel as [|fuel IH]; intros pos a ls a'; cbn [imprimirFree_laco];
    destruct (pos =? -1); try by intros [= _ <-].
  intros (l & a1 & ->%lerNo_inv & H)%bind_inv.
  apply bind_inv in H as (? & a2 & ->%IH & H). by injection H as _ <-.
Qed.

Lemma imprimirEstrutura_laco_le fuel tam_ : forall i pos a ls a',
  imprimirEstrutura_laco fuel i pos tam_ a = Val ls a' -> a' = a.
Proof.
  induction fuel as [|fuel IH]; intros i pos a ls a';
    cbn [imprimirEstrutura_laco];
    destruct (i <=? tam_); try by intros [= _ <-].
  intros (l & a1 & ->%lerNo_inv & H)%bind_inv.
  apply bind_inv in H as (? & a2 & ->%IH & H). by injection H as _ <-.
Qed.

(** X16. Whatever the file holds, a search or a dump that returns leaves
    the file as it was: only the choices 1, 2 and 3 of the menu write. *)
Theorem menu_so_leitura (e : entrada) (a a' : arquivo) (s : saida) :
  so_leitura e -> menu e a = Val s a' -> a' = a.
Proof.
  destruct e as [d|d|k|k| | | | |]; cbn [so_leitura menu]; intros He; try done.
  - intros (r & a1 & ->%pesquisa_le & [= _ <-])%bind_inv. done.
  - intros (x & a1 & H & [= _ <-])%bind_inv. unfold imprimirLista in H.
    rewrite bind_lerCab in H. destruct (first (cab a) =? -1);
      [by injection H as _ <-|].
    rewrite bind_combustivel in H.
    apply bind_inv in H as (? & a2 & ->%imprimirLista_laco_le & H).
    by injection H as _ <-.
  - intros (x & a1 & H & [= _ <-])%bind_inv. unfold imprimirEstrutura in H.
    rewrite bind_lerCab, bind_combustivel in H.
    apply bind_inv in H as (? & a2 & ->%imprimirEstrutura_laco_le & H).
    by injection H as _ <-.
  - intros (x & a1 & H & [= _ <-])%bind_inv. unfold imprimirFree in H.
    rewrite bind_lerCab, bind_combustivel in H.
    apply bind_inv in H as (? & a2 & ->%imprimirFree_laco_le & H).
    by injection H as _ <-.
  - by intros [= _ <-].
  - by intros [= _ <-].
Qed.

Lemma passo_abs_tam a a' o L F L' F' :
  Rep a L F -> Rep a' L' F' -> passo_abs o L F L' F' ->
  tam (cab a') = tam (cab a).
Proof.
  intros HR HR' Hp.
  pose proof (rep_tam _ _ _ HR) as H1. pose proof (rep_tam _ _ _ HR') as H2.
  pose proof (rep_length HR) as H3. pose proof (rep_length HR') as H4.
  destruct Hp as [[-> ->]|Hp]; [lia|]. destruct o as [d|d|k].
  - destruct Hp as (c & -> & -> & _). rewrite length_app in *.
    cbn [length] in *. lia.
  - destruct Hp as (c & L1 & L2 & -> & -> & -> & _). rewrite !length_app in *.
    cbn [length] in *. lia.
  - destruct Hp as (L1 & x & L2 & -> & -> & ->). rewrite !length_app in *.
    cbn [length] in *. lia.
Qed.

Lemma menu_rep a L F e :
  alcancavel qualquer a -> Rep a L F ->
  exists s a' L' F',
    menu e a = Val s a' /\ alcancavel qualquer a' /\ Rep a' L' F' /\
    tam (cab a') = tam (cab a).
Proof.
  intros Ha HR.
  assert (HM : forall o, exists a' L' F',
             executa o a = Val tt a' /\ alcancavel qualquer a' /\
             Rep a' L' F' /\ tam (cab a') = tam (cab a)).
  { intros o. destruct (executa_rep o _ _ _ HR) as (a' & L' & F' & E & HR' & Hp).
    exists a', L', F'. split_and!; [done| |done|by eapply passo_abs_tam].
    by eapply alc_passo. }
  assert (HL : exists x, imprimirLista a = Val x a).
  { unfold imprimirLista. rewrite bind_lerCab.
    rewrite (rep_first _ _ _ HR), (rep_last _ _ _ HR).
    destruct L as [|x L]; [by eexists|].
    pose proof (dll_primeiro _ _ _ _ _ (rep_dll _ _ _ HR)) as Hx.
    pose proof (rep_NoDup HR) as [ND _]%list.NoDup_app.
    pose proof (rep_length HR) as Hlen.
    change (cabeca (x :: L) (-1)) with x.1 at 1.
    rewrite (cursor_nao_fim _ _ _ Hx), bind_combustivel.
    rewrite (bind_val _ _ _ _ _
               (imprimirLista_laco_val a (x :: L) (-1) (S (length (nos a))) _
                  (rep_dll _ _ _ HR) ND ltac:(done) eq_refl ltac:(lia))).
    by eexists. }
  assert (HE : exists x, imprimirEstrutura a = Val x a).
  { unfold imprimirEstrutura. rewrite bind_lerCab, bind_combustivel.
    pose proof (imprimirEstrutura_laco_val a (tam (cab a)) (nos a) []
                  (S (length (nos a))) eq_refl (rep_tam _ _ _ HR)
                  (rep_max _ _ _ HR) ltac:(lia)) as EL.
    cbn [length] in EL. change (Z.of_nat 0 + 1) with 1 in EL.
    rewrite (bind_val _ _ _ _ _ EL). by eexists. }
  assert (HF : exists x, imprimirFree a = Val x a).
  { destruct (rep_livres HR) as (fr & E & _).
    unfold imprimirFree. rewrite bind_lerCab, bind_combustivel.
    rewrite (bind_val _ _ _ _ _ (imprimirFree_laco_val _ _ _ _ E)).
    by eexists. }
  destruct e as [d|d|k|k| | | | |]; cbn [menu].
  - destruct (HM (Inserir d)) as (a' & L' & F' & E & ? & ? & ?).
    apply bind_inv in E as (w & a1 & E & [= ->]).
    exists (SAviso w), a', L', F'. by rewrite (bind_val _ _ _ _ _ E).
  - destruct (HM (InserirOrdenado d)) as (a' & L' & F' & E & ? & ? & ?).
    apply bind_inv in E as (w & a1 & E & [= ->]).
    exists (SAviso w), a', L', F'. by rewrite (bind_val _ _ _ _ _ E).
  - destruct (HM (Remover k)) as (a' & L' & F' & E & ? & ? & ?).
    apply bind_inv in E as (w & a1 & E & [= ->]).
    exists (SRemovido w), a', L', F'. by rewrite (bind_val _ _ _ _ _ E).
  - destruct (pesquisa_acha _ _ _ k HR) as (r & E & _).
    eexists _, a, L, F. by rewrite (bind_val _ _ _ _ _ E).
  - destruct HL as (x & E). eexists _, a, L, F.
    by rewrite (bind_val _ _ _ _ _ E).
  - destruct HE as (x & E). eexists _, a, L, F.
    by rewrite (bind_val _ _ _ _ _ E).
  - destruct HF as (x & E). eexists _, a, L, F.
    by rewrite (bind_val _ _ _ _ _ E).
  - by exists SEncerrando, a, L, F.
  - by exists SInvalida, a, L, F.
Qed.

(** X17. From a file created with a capacity of at least 1, no series of
    choices of the menu makes the program read or write outside the file or
    loop for ever: the run returns its answers, one for each choice when
    no choice is 0, the capacity stays the same and the file left is again
    a reachable one. *)
Theorem sessao_total (es : list entrada) (a : arquivo) :
  alcancavel qualquer a -> 1 <= tam (cab a) ->
  exists ss a',
    sessao es a = Val ss a' /\ alcancavel qualquer a' /\
    tam (cab a') = tam (cab a) /\
    (ESair ∉ es -> length ss = length es).
Proof.
  intros Ha Ht.
  destruct (alcancavel_rep _ Ha) as [Hs|(L & F & HR & _)].
  { destruct Hs as (_ & _ & _ & _ & _ & ?). lia. }
  clear Ht. revert a L F Ha HR.
  induction es as [|e es IH]; intros a L F Ha HR.
  - by exists [], a.
  - destruct (menu_rep a L F e Ha HR) as (s & a1 & L1 & F1 & E & Ha1 & HR1 & T1).
    destruct (IH a1 L1 F1 Ha1 HR1) as (ss & a2 & E2 & Ha2 & T2 & Hlen).
    cbn [sessao]. rewrite (bind_val _ _ _ _ _ E).
    destruct e; try (exists (s :: ss), a2; rewrite (bind_val _ _ _ _ _ E2);
      split_and!; [done|done|congruence|];
      intros [_ Hn]%not_elem_of_cons; cbn [length]; by rewrite Hlen).
    exists [s], a1. split_and!; [done..|]. intros []. left.
Qed.

(** ** Round trips *)








(** ** A capacity below 1 *)

(** X20. With a capacity [n <= 0], [inicializar] writes the header alone.
    On that file [pesquisa] and [remover] report the key absent and
    [imprimirLista] prints [Lista vazia!], but no insertion is refused as
    "arquivo cheio": both go on to read cell 1, which the file does not
    have, and so does [imprimirFree]. *)
Theorem capacidade_nao_positiva (n : Z) (lixo : list byte) (d : dados)
    (k : Z) :
  n <= 0 ->
  exists a,
    inicializar n lixo = Some a /\ nos a = [] /\
    pesquisa k a = Val None a /\ remover k a = Val false a /\
    imprimirLista a = Val (cab a, ListaVazia) a /\
    inserir d a = Erro ForaDoArquivo /\
    inserirOrdenado d a = Erro ForaDoArquivo /\
    imprimirFree a = Erro ForaDoArquivo.
Proof.
  intros Hn. pose proof (inicializar_val n lixo) as E.
  rewrite seqZ_nil in E by lia. eexists. split; [apply E|].
  { unfold INT_MAX. lia. }
  assert (Hs : sem_nos (Arquivo (Cabecalho 0 (-1) (-1) 1 n) [])).
  { by eapply inicializar_sem_nos, E; unfold INT_MAX; lia. }
  destruct (inserir_sem_nos _ d Hs) as [E1 E2].
  split_and!; [done|done|by apply remover_sem_nos|done|done|done|done].
Qed.

(** * The further properties on the example files *)

Lemma arquivo_novo_alcancavel P : alcancavel P arquivo_novo.
Proof. apply (alc_inicial _ 3 []), arquivo_novo_inicial. Qed.

Lemma arquivo_um_alcancavel : alcancavel qualquer arquivo_um.
Proof.
  apply (alc_passo _ arquivo_novo (Inserir (Dados 5 [x41])));
    [apply arquivo_novo_alcancavel|done|reflexivity].
Qed.

Lemma arquivo_dois_alcancavel : alcancavel qualquer arquivo_dois.
Proof.
  apply (alcancavel_todas _
           [InserirOrdenado (Dados 2 [x42]); InserirOrdenado (Dados 5 [x41])]
           arquivo_novo); [apply arquivo_novo_alcancavel| |reflexivity].
  by repeat constructor.
Qed.

Lemma inicializar_cadeia_livre_witness :
  1 <= 3 /\ 3 < INT_MAX /\
  exists a fr,
    inicializar 3 [] = Some a /\
    cab a = Cabecalho 0 (-1) (-1) 1 3 /\
    Z.of_nat (length (nos a)) = 3 /\
    ativos a = Some [] /\
    livres a = Some fr /\ fr.*1 = seqZ 1 3 /\
    Forall (fun x => chave_de x = -1) fr.
Proof.
  assert (H1 : 1 <= 3) by lia. assert (H2 : 3 < INT_MAX) by reflexivity.
  split; [exact H1|]. split; [exact H2|].
  apply (inicializar_cadeia_livre 3 [] H1 H2).
Defined.

Lemma chaves_distintas_witness :
  alcancavel qualquer arquivo_exemplo /\
  exists l, ativos arquivo_exemplo = Some l /\ NoDup (map chave_de l).
Proof.
  assert (H : alcancavel qualquer arquivo_exemplo).
  { apply arquivo_exemplo_alcancavel. repeat constructor. }
  split; [exact H|]. apply (chaves_distintas arquivo_exemplo H).
Defined.

Lemma pesquisa_correta_witness :
  alcancavel qualquer arquivo_exemplo /\
  exists l,
    ativos arquivo_exemplo = Some l /\
    (((3 ∉ map chave_de l) /\
      pesquisa 3 arquivo_exemplo = Val None arquivo_exemplo) \/
     (exists x, x ∈ l /\ chave_de x = 3 /\
                pesquisa 3 arquivo_exemplo = Val (Some x.2) arquivo_exemplo)).
Proof.
  assert (H : alcancavel qualquer arquivo_exemplo).
  { apply arquivo_exemplo_alcancavel. repeat constructor. }
  split; [exact H|]. apply (pesquisa_correta arquivo_exemplo 3 H).
Defined.

Lemma resultado_da_insercao_witness :
  alcancavel qualquer arquivo_exemplo /\ 1 <= tam (cab arquivo_exemplo) /\
  exists l w a1 a2,
    ativos arquivo_exemplo = Some l /\
    inserir (Dados 7 [x44]) arquivo_exemplo = Val w a1 /\
    inserirOrdenado (Dados 7 [x44]) arquivo_exemplo = Val w a2 /\
    (w = ChaveJaExistente <-> 7 ∈ map chave_de l) /\
    (w = ArquivoCheio <->
     (7 ∉ map chave_de l) /\
     quant (cab arquivo_exemplo) = tam (cab arquivo_exemplo)) /\
    (w = Inserido <->
     (7 ∉ map chave_de l) /\
     quant (cab arquivo_exemplo) < tam (cab arquivo_exemplo)).
Proof.
  assert (H : alcancavel qualquer arquivo_exemplo).
  { apply arquivo_exemplo_alcancavel. repeat constructor. }
  assert (Ht : 1 <= tam (cab arquivo_exemplo)) by (cbn; lia).
  split; [exact H|]. split; [exact Ht|].
  apply (resultado_da_insercao arquivo_exemplo (Dados 7 [x44]) H Ht).
Defined.

Lemma inserir_no_fim_witness :
  alcancavel qualquer arquivo_novo /\
  inserir (Dados 5 [x41]) arquivo_novo = Val Inserido arquivo_um /\
  exists rs c n fr fr',
    registros arquivo_novo = Some rs /\
    registros arquivo_um = Some (rs ++ [Dados 5 [x41]]) /\
    livres arquivo_novo = Some ((c, n) :: fr) /\
    livres arquivo_um = Some fr' /\
    fr'.*1 = fr.*1 /\
    last (cab arquivo_um) = c /\
    no_em (nos arquivo_um) c =
      Some (No (-1) (last (cab arquivo_novo)) (Dados 5 [x41])) /\
    quant (cab arquivo_um) = quant (cab arquivo_novo) + 1 /\
    tam (cab arquivo_um) = tam (cab arquivo_novo).
Proof.
  assert (H : alcancavel qualquer arquivo_novo)
    by apply arquivo_novo_alcancavel.
  assert (E : inserir (Dados 5 [x41]) arquivo_novo = Val Inserido arquivo_um)
    by reflexivity.
  split; [exact H|]. split; [exact E|].
  apply (inserir_no_fim arquivo_novo arquivo_um (Dados 5 [x41]) H E).
Defined.

Lemma inserirOrdenado_posicao_witness :
  alcancavel qualquer arquivo_dois /\
  inserirOrdenado (Dados 3 [x43]) arquivo_dois = Val Inserido arquivo_exemplo /\
  exists r1 r2,
    registros arquivo_dois = Some (r1 ++ r2) /\
    registros arquivo_exemplo = Some (r1 ++ Dados 3 [x43] :: r2) /\
    Forall (fun r => chave r < 3) r1 /\
    match r2 with [] => True | r :: _ => 3 < chave r end /\
    quant (cab arquivo_exemplo) = quant (cab arquivo_dois) + 1.
Proof.
  assert (H : alcancavel qualquer arquivo_dois)
    by apply arquivo_dois_alcancavel.
  assert (E : inserirOrdenado (Dados 3 [x43]) arquivo_dois =
              Val Inserido arquivo_exemplo) by reflexivity.
  split; [exact H|]. split; [exact E|].
  apply (inserirOrdenado_posicao arquivo_dois arquivo_exemplo
           (Dados 3 [x43]) H E).
Defined.

Lemma remover_efeito_witness :
  alcancavel qualquer arquivo_exemplo /\
  remover 3 arquivo_exemplo = Val true arquivo_sem_3 /\
  exists r1 x r2 c fr fr',
    registros arquivo_exemplo = Some (r1 ++ x :: r2) /\ chave x = 3 /\
    registros arquivo_sem_3 = Some (r1 ++ r2) /\
    Forall (fun r => chave r <> 3) (r1 ++ r2) /\
    (exists n, no_em (nos arquivo_exemplo) c = Some n /\ reg n = x) /\
    (exists n', no_em (nos arquivo_sem_3) c = Some n' /\
                chave (reg n') = -1) /\
    livres arquivo_exemplo = Some fr /\ livres arquivo_sem_3 = Some fr' /\
    fr'.*1 = c :: fr.*1 /\
    free (cab arquivo_sem_3) = c /\
    quant (cab arquivo_sem_3) = quant (cab arquivo_exemplo) - 1 /\
    tam (cab arquivo_sem_3) = tam (cab arquivo_exemplo).
Proof.
  assert (H : alcancavel qualquer arquivo_exemplo).
  { apply arquivo_exemplo_alcancavel. repeat constructor. }
  assert (E : remover 3 arquivo_exemplo = Val true arquivo_sem_3)
    by reflexivity.
  split; [exact H|]. split; [exact E|].
  apply (remover_efeito arquivo_exemplo arquivo_sem_3 3 H E).
Defined.

Lemma remover_sse_ativa_witness :
  alcancavel qualquer arquivo_exemplo /\
  exists l b a',
    ativos arquivo_exemplo = Some l /\ remover 3 arquivo_exemplo = Val b a' /\
    (b = true <-> 3 ∈ map chave_de l) /\
    pesquisa 3 a' = Val None a'.
Proof.
  assert (H : alcancavel qualquer arquivo_exemplo).
  { apply arquivo_exemplo_alcancavel. repeat constructor. }
  split; [exact H|]. apply (remover_sse_ativa arquivo_exemplo 3 H).
Defined.

Lemma reutiliza_no_liberado_witness :
  alcancavel qualquer arquivo_exemplo /\
  remover 3 arquivo_exemplo = Val true arquivo_sem_3 /\
  inserir (Dados 7 [x44]) arquivo_sem_3 = Val Inserido arquivo_sem_3_com_7 /\
  exists c n,
    no_em (nos arquivo_exemplo) c = Some n /\ chave (reg n) = 3 /\
    (exists l, ativos arquivo_exemplo = Some l /\ (c, n) ∈ l) /\
    no_em (nos arquivo_sem_3_com_7) c =
      Some (No (-1) (last (cab arquivo_sem_3)) (Dados 7 [x44])) /\
    last (cab arquivo_sem_3_com_7) = c.
Proof.
  assert (H : alcancavel qualquer arquivo_exemplo).
  { apply arquivo_exemplo_alcancavel. repeat constructor. }
  assert (E1 : remover 3 arquivo_exemplo = Val true arquivo_sem_3)
    by reflexivity.
  assert (E2 : inserir (Dados 7 [x44]) arquivo_sem_3 =
               Val Inserido arquivo_sem_3_com_7) by reflexivity.
  split; [exact H|]. split; [exact E1|]. split; [exact E2|].
  apply (reutiliza_no_liberado arquivo_exemplo arquivo_sem_3
           arquivo_sem_3_com_7 3 (Dados 7 [x44]) H E1 E2).
Defined.

Lemma contagem_das_cadeias_witness :
  alcancavel qualquer arquivo_dois /\ 1 <= tam (cab arquivo_dois) /\
  exists l fr,
    ativos arquivo_dois = Some l /\ livres arquivo_dois = Some fr /\
    Z.of_nat (length l) = quant (cab arquivo_dois) /\
    Z.of_nat (length fr) = tam (cab arquivo_dois) - quant (cab arquivo_dois) /\
    0 <= quant (cab arquivo_dois) <= tam (cab arquivo_dois).
Proof.
  assert (H : alcancavel qualquer arquivo_dois)
    by apply arquivo_dois_alcancavel.
  assert (Ht : 1 <= tam (cab arquivo_dois)) by (cbn; lia).
  split; [exact H|]. split; [exact Ht|].
  apply (contagem_das_cadeias arquivo_dois H Ht).
Defined.

Lemma outras_chaves_intactas_witness :
  alcancavel qualquer arquivo_exemplo /\
  executa (Remover 3) arquivo_exemplo = Val tt arquivo_sem_3 /\
  chave_op (Remover 3) <> 5 /\
  exists r r',
    pesquisa 5 arquivo_exemplo = Val r arquivo_exemplo /\
    pesquisa 5 arquivo_sem_3 = Val r' arquivo_sem_3 /\
    reg <$> r = reg <$> r'.
Proof.
  assert (H : alcancavel qualquer arquivo_exemplo).
  { apply arquivo_exemplo_alcancavel. repeat constructor. }
  assert (E : executa (Remover 3) arquivo_exemplo = Val tt arquivo_sem_3)
    by reflexivity.
  assert (Hk : chave_op (Remover 3) <> 5) by (cbn; lia).
  split; [exact H|]. split; [exact E|]. split; [exact Hk|].
  apply (outras_chaves_intactas arquivo_exemplo arquivo_sem_3 (Remover 3) 5
           H E Hk).
Defined.

Lemma inserirOrdenado_como_inserir_witness :
  alcancavel qualquer arquivo_dois /\
  ativos arquivo_dois =
    Some [(1, No 2 (-1) (Dados 2 [x42])); (2, No (-1) 1 (Dados 5 [x41]))] /\
  Forall (fun x => chave_de x <= 7)
    [(1, No 2 (-1) (Dados 2 [x42])); (2, No (-1) 1 (Dados 5 [x41]))] /\
  inserir (Dados 7 [x44]) arquivo_dois =
  inserirOrdenado (Dados 7 [x44]) arquivo_dois.
Proof.
  assert (H : alcancavel qualquer arquivo_dois)
    by apply arquivo_dois_alcancavel.
  assert (E : ativos arquivo_dois =
    Some [(1, No 2 (-1) (Dados 2 [x42])); (2, No (-1) 1 (Dados 5 [x41]))])
    by reflexivity.
  assert (HF : Forall (fun x => chave_de x <= 7)
    [(1, No 2 (-1) (Dados 2 [x42])); (2, No (-1) 1 (Dados 5 [x41]))]).
  { repeat constructor; cbn; lia. }
  split; [exact H|]. split; [exact E|]. split; [exact HF|].
  apply (inserirOrdenado_como_inserir arquivo_dois (Dados 7 [x44]) _ H E HF).
Defined.

Lemma imprimirLista_cadeia_witness :
  alcancavel qualquer arquivo_exemplo /\
  exists l,
    ativos arquivo_exemplo = Some l /\
    Z.of_nat (length l) = quant (cab arquivo_exemplo) /\
    imprimirLista arquivo_exemplo =
      Val (cab arquivo_exemplo,
           match l with
           | [] => ListaVazia
           | _ => Registros (map (fun x => linha_lista x.1 x.2) l)
           end) arquivo_exemplo.
Proof.
  assert (H : alcancavel qualquer arquivo_exemplo).
  { apply arquivo_exemplo_alcancavel. repeat constructor. }
  split; [exact H|]. apply (imprimirLista_cadeia arquivo_exemplo H).
Defined.

Lemma imprimirFree_cadeia_witness :
  alcancavel qualquer arquivo_um /\ 1 <= tam (cab arquivo_um) /\
  exists l ls,
    ativos arquivo_um = Some l /\
    imprimirFree arquivo_um = Val (free (cab arquivo_um), ls) arquivo_um /\
    Z.of_nat (length ls) = tam (cab arquivo_um) - quant (cab arquivo_um) /\
    NoDup ls.*1 /\
    forall c, c ∈ ls.*1 <-> 1 <= c <= tam (cab arquivo_um) /\ c ∉ l.*1.
Proof.
  assert (H : alcancavel qualquer arquivo_um) by apply arquivo_um_alcancavel.
  assert (Ht : 1 <= tam (cab arquivo_um)) by (cbn; lia).
  split; [exact H|]. split; [exact Ht|].
  apply (imprimirFree_cadeia arquivo_um H Ht).
Defined.

Lemma imprimirEstrutura_linhas_witness :
  alcancavel chave_valida arquivo_sem_3 /\ 1 <= tam (cab arquivo_sem_3) /\
  exists l fr ls,
    ativos arquivo_sem_3 = Some l /\ livres arquivo_sem_3 = Some fr /\
    imprimirEstrutura arquivo_sem_3 =
      Val (cab arquivo_sem_3, ls) arquivo_sem_3 /\
    map lin_pos ls = seqZ 1 (tam (cab arquivo_sem_3)) /\
    (forall ln, ln ∈ ls -> (lin_chave ln = None <-> lin_pos ln ∈ fr.*1)) /\
    filter (fun ln => is_Some (lin_chave ln)) ls ≡ₚ
      map (fun x => linha_lista x.1 x.2) l.
Proof.
  assert (H : alcancavel chave_valida arquivo_sem_3).
  { apply (alc_passo _ arquivo_exemplo (Remover 3)); [|done|reflexivity].
    apply arquivo_exemplo_alcancavel. repeat constructor; cbn; lia. }
  assert (Ht : 1 <= tam (cab arquivo_sem_3)) by (cbn; lia).
  split; [exact H|]. split; [exact Ht|].
  apply (imprimirEstrutura_linhas arquivo_sem_3 H Ht).
Defined.

Lemma menu_so_leitura_witness :
  so_leitura EImprimirFree /\
  menu EImprimirFree arquivo_um =
    Val (SLivres (2, [(2, 3); (3, -1)])) arquivo_um /\
  arquivo_um = arquivo_um.
Proof.
  assert (H : so_leitura EImprimirFree) by exact I.
  assert (E : menu EImprimirFree arquivo_um =
              Val (SLivres (2, [(2, 3); (3, -1)])) arquivo_um) by reflexivity.
  split; [exact H|]. split; [exact E|].
  apply (menu_so_leitura EImprimirFree arquivo_um arquivo_um _ H E).
Defined.

Lemma sessao_total_witness :
  alcancavel qualquer arquivo_novo /\ 1 <= tam (cab arquivo_novo) /\
  exists ss a',
    sessao [EInserir (Dados 5 [x41]); EPesquisar 5; ERemover 9;
            EImprimirEstrutura] arquivo_novo = Val ss a' /\
    alcancavel qualquer a' /\
    tam (cab a') = tam (cab arquivo_novo) /\
    (ESair ∉ [EInserir (Dados 5 [x41]); EPesquisar 5; ERemover 9;
              EImprimirEstrutura] ->
     length ss =
     length [EInserir (Dados 5 [x41]); EPesquisar 5; ERemover 9;
             EImprimirEstrutura]).
Proof.
  assert (H : alcancavel qualquer arquivo_novo)
    by apply arquivo_novo_alcancavel.
  assert (Ht : 1 <= tam (cab arquivo_novo)) by (cbn; lia).
  split; [exact H|]. split; [exact Ht|].
  apply (sessao_total _ arquivo_novo H Ht).
Defined.



Lemma capacidade_nao_positiva_witness :
  0 <= 0 /\
  exists a,
    inicializar 0 [] = Some a /\ nos a = [] /\
    pesquisa 4 a = Val None a /\ remover 4 a = Val false a /\
    imprimirLista a = Val (cab a, ListaVazia) a /\
    inserir (Dados 4 [x41]) a = Erro ForaDoArquivo /\
    inserirOrdenado (Dados 4 [x41]) a = Erro ForaDoArquivo /\
    imprimirFree a = Erro ForaDoArquivo.
Proof.
  assert (H : 0 <= 0) by lia. split; [exact H|].
  apply (capacidade_nao_positiva 0 [] (Dados 4 [x41]) 4 H).
Defined.
